(** * draggable-mask: a video revealed through draggable canvas windows

    A shallow embedding of [src/component/draggable-mask.tsx].

    The component keeps three pieces of React state ([isHovering],
    [maskStates], [draggingState]) and a handful of refs to DOM nodes.
    Every handler is a closure over the state of the render that created it:
    it reads that snapshot, mutates DOM nodes at once, and schedules state
    updates, which the next render commits.  The embedding passes both
    explicitly: a handler takes the state its render saw and the component,
    and returns the component with the DOM as mutated and the state as the
    next render will see it.  The handlers React attaches to the masks are
    those of the latest render.  The closures that outlive a render keep the
    state of the render that made them: the [draw] callbacks handed to
    [requestAnimationFrame], and the document-wide listener, which the effect
    keyed on [isHovering] replaces only when React runs it again.

    JavaScript numbers are IEEE 754 doubles.  The handlers only add,
    subtract, multiply, divide and compare them, so the embedding is written
    once over an interface [Arith] and instantiated twice: with the kernel's
    binary64 floats, which is what the browser computes, and with exact
    rationals, which is the arithmetic the cover-fit formulas are stated
    in.  Statements made for every [Arith] hold of both. *)

From Stdlib Require Import ZArith QArith Qminmax Qround Lqa PrimFloat.
From stdpp Require Import base option list strings pretty.

(** ** Numbers *)

Class Arith (num : Type) := {
  nzero : num;
  ntwo : num;
  nadd : num → num → num;
  nsub : num → num → num;
  nmul : num → num → num;
  ndiv : num → num → num;
  (** [a > b] *)
  ngt : num → num → bool;
}.

Declare Scope num_scope.
Delimit Scope num_scope with num.
Notation "a + b" := (nadd a b) : num_scope.
Notation "a - b" := (nsub a b) : num_scope.
Notation "a * b" := (nmul a b) : num_scope.
Notation "a / b" := (ndiv a b) : num_scope.
Notation "a >? b" := (ngt a b) (at level 70) : num_scope.

(** The built-in conversions the component applies to numbers. *)
Class Builtins (num : Type) := {
  (** [Math.round] *)
  Math_round : num → num;
  (** the conversion to a string inside a template literal *)
  toString : num → string;
  (** the conversion to [unsigned long] made by the setters of
      [canvas.width] and [canvas.height] *)
  toUnsignedLong : num → num;
}.

(** IEEE 754 binary64, the numbers of the source. *)
#[export] Instance float_arith : Arith float := {|
  nzero := 0%float;
  ntwo := 2%float;
  nadd := PrimFloat.add;
  nsub := PrimFloat.sub;
  nmul := PrimFloat.mul;
  ndiv := PrimFloat.div;
  ngt := fun a b => PrimFloat.ltb b a;
|}.

(** Exact rational arithmetic. *)
#[export] Instance Q_arith : Arith Q := {|
  nzero := 0%Q;
  ntwo := 2%Q;
  nadd := Qplus;
  nsub := Qminus;
  nmul := Qmult;
  ndiv := Qdiv;
  ngt := fun a b => negb (Qle_bool a b);
|}.

(** [Math.round] rounds to the nearest integer, halves upwards; an
    [unsigned long] is the integer part modulo [2^32]; integers print in
    decimal. *)
#[export] Instance Q_builtins : Builtins Q := {|
  Math_round := fun q => inject_Z (Qfloor (q + (1 # 2)));
  toString := fun q =>
    if decide (Qden q = 1%positive) then pretty (Qnum q)
    else pretty (Qnum q) +:+ "/" +:+ pretty (Zpos (Qden q));
  toUnsignedLong := fun q => inject_Z (Z.quot (Qnum q) (Zpos (Qden q)) mod 2 ^ 32);
|}.

(** ** Sparse arrays *)

(** A JavaScript array whose slots may be holes, [undefined] or [null]:
    all three read as a falsy value, [None] here. *)
Definition aget {A} (l : list (option A)) (i : nat) : option A :=
  from_option id None (l !! i).

(** [l[i] = v]: an assignment past the end extends the array with holes. *)
Definition aset {A} (l : list (option A)) (i : nat) (v : A) : list (option A) :=
  if decide (i < length l) then <[i := Some v]> l
  else l ++ replicate (i - length l) None ++ [Some v].

(** [l.forEach((a, index) => ...)] with a body that does nothing on a falsy
    element; holes are not visited either.  The body threads the state it
    mutates. *)
Fixpoint forEachFrom {A St} (f : A → nat → St → St) (i : nat) (l : list (option A)) (s : St) : St :=
  match l with
  | [] => s
  | o :: l' => forEachFrom f (S i) l' (match o with Some a => f a i s | None => s end)
  end.

Definition forEach {A St} (f : A → nat → St → St) (l : list (option A)) (s : St) : St :=
  forEachFrom f 0 l s.

(** ** Data model *)

Section Model.
Context {num : Type} `{!Arith num, !Builtins num}.

(** [interface MaskState { x; y; w; h }] *)
Record MaskState := { x : num; y : num; w : num; h : num }.

(** An element of [maskStates].  [initMasks] stores objects with the four
    fields; [{...newStates[index], x, y}] spread over an absent element is an
    object with [x] and [y] only. *)
Inductive MaskSlot :=
  | full (rect : MaskState)
  | bare (sx sy : num).

Definition slot_x (s : MaskSlot) : num :=
  match s with full r => x r | bare sx _ => sx end.
Definition slot_y (s : MaskSlot) : num :=
  match s with full r => y r | bare _ sy => sy end.
Definition slot_w (s : MaskSlot) : option num :=
  match s with full r => Some (w r) | bare _ _ => None end.
Definition slot_h (s : MaskSlot) : option num :=
  match s with full r => Some (h r) | bare _ _ => None end.

(** [{...old, x: nx, y: ny}] *)
Definition spread (old : option MaskSlot) (nx ny : num) : MaskSlot :=
  match old with
  | Some (full r) => full {| x := nx; y := ny; w := w r; h := h r |}
  | Some (bare _ _) | None => bare nx ny
  end.

(** [useState<{ index: number | null; offsetX; offsetY }>] *)
Record DraggingState := { index : option nat; offsetX : num; offsetY : num }.

(** The React state of the component. *)
Record State := {
  isHovering : bool;
  maskStates : list (option MaskSlot);
  draggingState : DraggingState;
}.

Record MouseEvent := { clientX : num; clientY : num }.

(** What [drawClipped] reads of the video element and of [window]. *)
Record Video := { videoWidth : num; videoHeight : num }.
Record Window := { innerWidth : num; innerHeight : num }.

(** The calls made on a canvas' 2D context. *)
Inductive CanvasOp :=
  | clearRect (cx cy cw ch : num)
  | drawImage (sx sy sw sh dx dy dw dh : num).

(** A [<canvas>]: its pixel size, whether [getContext("2d")] returns a
    context, and the calls made on that context since the bitmap was last
    reset. *)
Record CanvasEl := {
  canvasWidth : num;
  canvasHeight : num;
  context2d : bool;
  ops : list CanvasOp;
}.

(** A [<div>]: the global HUD and the coordinate labels.  [transform] holds
    the two lengths of [translate3d(a px, b px, 0)]. *)
Record DivEl := { textContent : string; transform : option (num * num) }.

(** A mask [<button>].  [cssLeft], [cssTop], [cssWidth] and [cssHeight] are
    the used offsets and size its classes give it in its containing block;
    the inline [style] properties the component writes are next to them. *)
Record MaskEl := {
  cssLeft : num;
  cssTop : num;
  cssWidth : num;
  cssHeight : num;
  styleLeft : option num;
  styleTop : option num;
  styleTransform : option (num * num);
  styleCursor : option string;
}.

Record DOMRect := { rleft : num; rtop : num; rwidth : num; rheight : num }.

(** [mask.getBoundingClientRect()].  This is the browser's layout of an
    absolutely positioned box of fixed size, not code of the component: an
    inline [left] or [top] replaces the offset of the classes, and a
    translation moves the box from there.  [origin] is the viewport position
    of the containing block, the [<main>] element.  The offsets and the size
    of the classes are the used values of the layout at that moment: the
    classes give them in [vw] and [vh], and a viewport resize, which is not
    an event of this model, changes them. *)
Definition getBoundingClientRect (origin : num * num) (mask : MaskEl) : DOMRect :=
  let l := (origin.1 + default (cssLeft mask) (styleLeft mask))%num in
  let t := (origin.2 + default (cssTop mask) (styleTop mask))%num in
  {| rleft := match styleTransform mask with Some (a, _) => (l + a)%num | None => l end;
     rtop := match styleTransform mask with Some (_, b) => (t + b)%num | None => t end;
     rwidth := cssWidth mask;
     rheight := cssHeight mask |}.

(** The component instance: its refs, its React state, the part of the page
    it reads, and the animation frames it has requested.  A requested frame
    is the [draw] closure of some render, that is, the [maskStates] that
    render saw.  [documentListener] is the state seen by the render whose
    effect registered the document-wide [mousemove] listener. *)
Record Component := {
  globalHudRef : option DivEl;
  videoRef : option Video;
  maskRefs : list (option MaskEl);
  canvasRefs : list (option CanvasEl);
  coordsRefs : list (option DivEl);
  animationFrameRef : nat;
  state : State;
  window : Window;
  mainOrigin : num * num;
  frames : list (nat * list (option MaskSlot));
  nextHandle : nat;
  documentListener : State;
}.

(** *** Field updates *)

Definition set_textContent (t : string) (d : DivEl) : DivEl :=
  {| textContent := t; transform := transform d |}.
Definition set_transform (a b : num) (d : DivEl) : DivEl :=
  {| textContent := textContent d; transform := Some (a, b) |}.

Definition set_styleCursor (v : string) (m : MaskEl) : MaskEl :=
  {| cssLeft := cssLeft m; cssTop := cssTop m; cssWidth := cssWidth m;
     cssHeight := cssHeight m; styleLeft := styleLeft m; styleTop := styleTop m;
     styleTransform := styleTransform m; styleCursor := Some v |}.
Definition set_styleTransform (a b : num) (m : MaskEl) : MaskEl :=
  {| cssLeft := cssLeft m; cssTop := cssTop m; cssWidth := cssWidth m;
     cssHeight := cssHeight m; styleLeft := styleLeft m; styleTop := styleTop m;
     styleTransform := Some (a, b); styleCursor := styleCursor m |}.

Definition setIsHovering (v : bool) (s : State) : State :=
  {| isHovering := v; maskStates := maskStates s; draggingState := draggingState s |}.
Definition setMaskStates (v : list (option MaskSlot)) (s : State) : State :=
  {| isHovering := isHovering s; maskStates := v; draggingState := draggingState s |}.
Definition setDraggingState (v : DraggingState) (s : State) : State :=
  {| isHovering := isHovering s; maskStates := maskStates s; draggingState := v |}.

Definition with_state (f : State → State) (c : Component) : Component :=
  {| globalHudRef := globalHudRef c; videoRef := videoRef c; maskRefs := maskRefs c;
     canvasRefs := canvasRefs c; coordsRefs := coordsRefs c;
     animationFrameRef := animationFrameRef c; state := f (state c);
     window := window c; mainOrigin := mainOrigin c; frames := frames c;
     nextHandle := nextHandle c; documentListener := documentListener c |}.
Definition with_globalHud (v : option DivEl) (c : Component) : Component :=
  {| globalHudRef := v; videoRef := videoRef c; maskRefs := maskRefs c;
     canvasRefs := canvasRefs c; coordsRefs := coordsRefs c;
     animationFrameRef := animationFrameRef c; state := state c;
     window := window c; mainOrigin := mainOrigin c; frames := frames c;
     nextHandle := nextHandle c; documentListener := documentListener c |}.
Definition with_masks (v : list (option MaskEl)) (c : Component) : Component :=
  {| globalHudRef := globalHudRef c; videoRef := videoRef c; maskRefs := v;
     canvasRefs := canvasRefs c; coordsRefs := coordsRefs c;
     animationFrameRef := animationFrameRef c; state := state c;
     window := window c; mainOrigin := mainOrigin c; frames := frames c;
     nextHandle := nextHandle c; documentListener := documentListener c |}.
Definition with_canvases (v : list (option CanvasEl)) (c : Component) : Component :=
  {| globalHudRef := globalHudRef c; videoRef := videoRef c; maskRefs := maskRefs c;
     canvasRefs := v; coordsRefs := coordsRefs c;
     animationFrameRef := animationFrameRef c; state := state c;
     window := window c; mainOrigin := mainOrigin c; frames := frames c;
     nextHandle := nextHandle c; documentListener := documentListener c |}.
Definition with_coords (v : list (option DivEl)) (c : Component) : Component :=
  {| globalHudRef := globalHudRef c; videoRef := videoRef c; maskRefs := maskRefs c;
     canvasRefs := canvasRefs c; coordsRefs := v;
     animationFrameRef := animationFrameRef c; state := state c;
     window := window c; mainOrigin := mainOrigin c; frames := frames c;
     nextHandle := nextHandle c; documentListener := documentListener c |}.
Definition with_frames (v : list (nat * list (option MaskSlot))) (c : Component) : Component :=
  {| globalHudRef := globalHudRef c; videoRef := videoRef c; maskRefs := maskRefs c;
     canvasRefs := canvasRefs c; coordsRefs := coordsRefs c;
     animationFrameRef := animationFrameRef c; state := state c;
     window := window c; mainOrigin := mainOrigin c; frames := v;
     nextHandle := nextHandle c; documentListener := documentListener c |}.

Definition with_documentListener (v : State) (c : Component) : Component :=
  {| globalHudRef := globalHudRef c; videoRef := videoRef c; maskRefs := maskRefs c;
     canvasRefs := canvasRefs c; coordsRefs := coordsRefs c;
     animationFrameRef := animationFrameRef c; state := state c;
     window := window c; mainOrigin := mainOrigin c; frames := frames c;
     nextHandle := nextHandle c; documentListener := v |}.

(** [animationFrameRef.current = requestAnimationFrame(draw)], where [draw]
    is the closure that saw [states]. *)
Definition requestAnimationFrame (states : list (option MaskSlot)) (c : Component) : Component :=
  {| globalHudRef := globalHudRef c; videoRef := videoRef c; maskRefs := maskRefs c;
     canvasRefs := canvasRefs c; coordsRefs := coordsRefs c;
     animationFrameRef := nextHandle c; state := state c;
     window := window c; mainOrigin := mainOrigin c;
     frames := frames c ++ [(nextHandle c, states)];
     nextHandle := S (nextHandle c); documentListener := documentListener c |}.

(** ** Geometry: [drawClipped] *)

(** The rectangle [(dw, dh, dx, dy)] the video occupies in the viewport,
    lines 43-58 of the source. *)
Record Placement := { dw : num; dh : num; dx : num; dy : num }.

Definition placement (video : Video) (win : Window) : Placement :=
  let videoAspect := (videoWidth video / videoHeight video)%num in
  let windowAspect := (innerWidth win / innerHeight win)%num in
  if (videoAspect >? windowAspect)%num then
    let dh := innerHeight win in
    let dw := (dh * videoAspect)%num in
    {| dw := dw; dh := dh; dx := ((innerWidth win - dw) / ntwo)%num; dy := nzero |}
  else
    let dw := innerWidth win in
    let dh := (dw / videoAspect)%num in
    {| dw := dw; dh := dh; dx := nzero; dy := ((innerHeight win - dh) / ntwo)%num |}.

Definition scaleX (video : Video) (win : Window) : num :=
  (videoWidth video / dw (placement video win))%num.
Definition scaleY (video : Video) (win : Window) : num :=
  (videoHeight video / dh (placement video win))%num.

(** The [ctx.drawImage] call of [drawClipped], lines 60-73. *)
Definition drawClipped (video : Video) (win : Window) (rect : MaskState) : CanvasOp :=
  let p := placement video win in
  drawImage
    ((x rect - dx p) * scaleX video win)%num
    ((y rect - dy p) * scaleY video win)%num
    (w rect * scaleX video win)%num
    (h rect * scaleY video win)%num
    nzero nzero (w rect) (h rect).

(** ** Labels, initialisation and the render loop *)

Definition coordsText (a b : num) : string :=
  "X: " +:+ toString a +:+ "px Y: " +:+ toString b +:+ "px".

(** [updateCoords], as memoised in a render that saw [states]. *)
Definition updateCoords (states : list (option MaskSlot)) (idx : nat) (c : Component) : Component :=
  match aget (coordsRefs c) idx, aget states idx with
  | Some coordsEl, Some s =>
      with_coords
        (<[idx := Some (set_textContent
                          (coordsText (Math_round (slot_x s)) (Math_round (slot_y s)))
                          coordsEl)]> (coordsRefs c)) c
  | _, _ => c
  end.

(** The rectangle [initMasks] records for a mask. *)
Definition measure (origin : num * num) (mask : MaskEl) : MaskState :=
  let r := getBoundingClientRect origin mask in
  {| x := rleft r; y := rtop r; w := rwidth r; h := rheight r |}.

(** [left = "0"; top = "0"; transform = translate3d(r.left, r.top, 0)] *)
Definition reanchor (origin : num * num) (mask : MaskEl) : MaskEl :=
  let r := getBoundingClientRect origin mask in
  {| cssLeft := cssLeft mask; cssTop := cssTop mask; cssWidth := cssWidth mask;
     cssHeight := cssHeight mask; styleLeft := Some nzero; styleTop := Some nzero;
     styleTransform := Some (rleft r, rtop r); styleCursor := styleCursor mask |}.

(** The body of the loop of [initMasks], on the pair of [newStates] and the
    mask elements. *)
Definition initMask (origin : num * num) (mask : MaskEl) (idx : nat)
    (acc : list (option MaskSlot) * list (option MaskEl))
    : list (option MaskSlot) * list (option MaskEl) :=
  (aset acc.1 idx (full (measure origin mask)),
   <[idx := Some (reanchor origin mask)]> acc.2).

Definition initMasks (c : Component) : Component :=
  let r := forEach (initMask (mainOrigin c)) (maskRefs c) ([], maskRefs c) in
  with_state (setMaskStates r.1) (with_masks r.2 c).

(** Assigning [canvas.width] or [canvas.height] resets the bitmap. *)
Definition resize (cw ch : option num) (canvas : CanvasEl) : CanvasEl :=
  {| canvasWidth := toUnsignedLong (default nzero cw);
     canvasHeight := toUnsignedLong (default nzero ch);
     context2d := context2d canvas;
     ops := [] |}.

(** [initCanvases], as memoised in a render that saw [states]. *)
Definition initCanvases (states : list (option MaskSlot)) (c : Component) : Component :=
  forEach (fun s idx c =>
    match aget (canvasRefs c) idx with
    | Some canvas =>
        with_canvases (<[idx := Some (resize (slot_w s) (slot_h s) canvas)]> (canvasRefs c)) c
    | None => c
    end) states c.

(** The calls one iteration of [draw] makes on a context.  With [w] and [h]
    missing, [drawImage] receives [NaN] and returns without drawing. *)
Definition paint (video : Video) (win : Window) (s : MaskSlot) (canvas : CanvasEl) : CanvasEl :=
  {| canvasWidth := canvasWidth canvas;
     canvasHeight := canvasHeight canvas;
     context2d := context2d canvas;
     ops := ops canvas
            ++ [clearRect nzero nzero (canvasWidth canvas) (canvasHeight canvas)]
            ++ match s with full rect => [drawClipped video win rect] | bare _ _ => [] end |}.

(** The body of the loop of [draw]. *)
Definition drawMask (video : Video) (states : list (option MaskSlot))
    (s : MaskSlot) (idx : nat) (c : Component) : Component :=
  match aget (canvasRefs c) idx with
  | Some canvas =>
      if context2d canvas then
        updateCoords states idx
          (with_canvases (<[idx := Some (paint video (window c) s canvas)]> (canvasRefs c)) c)
      else c
  | None => c
  end.

(** What one iteration of [draw] for a mask in state [s] makes of the
    canvas and of the coordinate label of that mask. *)
Definition painted (video : Video) (win : Window) (s : MaskSlot)
    (canvas : option CanvasEl) : option CanvasEl :=
  (λ cv, if context2d cv then paint video win s cv else cv) <$> canvas.

Definition labelled (s : MaskSlot) (canvas : option CanvasEl)
    (label : option DivEl) : option DivEl :=
  match canvas with
  | Some cv =>
      if context2d cv then
        set_textContent (coordsText (Math_round (slot_x s)) (Math_round (slot_y s))) <$> label
      else label
  | None => label
  end.

(** [draw], as memoised in a render that saw [states]. *)
Definition draw (states : list (option MaskSlot)) (c : Component) : Component :=
  match videoRef c with
  | None => c
  | Some video =>
      requestAnimationFrame states (forEach (drawMask video states) states c)
  end.

(** The listener of the video's [playing] event.  [initCanvases] and [draw]
    are the closures of the render that registered the listener: they see
    the [maskStates] of that render, not the ones [initMasks] has just
    set. *)
Definition handlePlaying (s : State) (c : Component) : Component :=
  draw (maskStates s) (initCanvases (maskStates s) (initMasks c)).

(** ** Global mouse tracking *)

(** The [handleMouseMove] of the document-wide listener (line 131), as
    registered by a render that saw [s]. *)
Definition handleMouseMoveGlobal (s : State) (e : MouseEvent) (c : Component) : Component :=
  let c1 :=
    if negb (isHovering s) then
      with_globalHud
        (set_textContent (coordsText (clientX e) (clientY e)) <$> globalHudRef c) c
    else c in
  with_globalHud
    (set_transform (clientX e + ntwo)%num (clientY e + ntwo)%num <$> globalHudRef c1) c1.

(** ** Dragging handlers *)

Definition handleMouseDown (s : State) (e : MouseEvent) (idx : nat) (c : Component) : Component :=
  match aget (maskRefs c) idx, aget (maskStates s) idx with
  | Some mask, Some m =>
      with_masks (<[idx := Some (set_styleCursor "grabbing" mask)]> (maskRefs c))
        (with_state
           (setDraggingState
              {| index := Some idx;
                 offsetX := (clientX e - slot_x m)%num;
                 offsetY := (clientY e - slot_y m)%num |}) c)
  | _, _ => c
  end.

(** The [handleMouseMove] of a mask (line 186). *)
Definition handleMouseMove (s : State) (e : MouseEvent) (idx : nat) (c : Component) : Component :=
  if decide (index (draggingState s) = Some idx) then
    let moved :=
      spread (aget (maskStates s) idx)
        (clientX e - offsetX (draggingState s))%num
        (clientY e - offsetY (draggingState s))%num in
    let newStates := aset (maskStates s) idx moved in
    let c1 := with_state (setMaskStates newStates) c in
    match aget (maskRefs c1) idx with
    | Some mask =>
        with_masks
          (<[idx := Some (set_styleTransform (slot_x moved) (slot_y moved) mask)]> (maskRefs c1)) c1
    | None => c1
    end
  else c.

Definition handleMouseUp (s : State) (c : Component) : Component :=
  match index (draggingState s) with
  | Some i =>
      let c1 :=
        match aget (maskRefs c) i with
        | Some mask => with_masks (<[i := Some (set_styleCursor "grab" mask)]> (maskRefs c)) c
        | None => c
        end in
      with_state (setDraggingState {| index := None; offsetX := nzero; offsetY := nzero |}) c1
  | None => c
  end.

Definition handleMouseEnter (c : Component) : Component :=
  with_globalHud (set_textContent "GRAB" <$> globalHudRef c)
    (with_state (setIsHovering true) c).

Definition handleMouseLeave (c : Component) : Component :=
  with_globalHud (set_textContent "HOVER" <$> globalHudRef c)
    (with_state (setIsHovering false) c).

(** ** Events *)

(** The events the component listens to.  The mouse events of a mask carry
    the index its JSX passes to the handler.  [hoverEffect] is React running
    the effects of the latest render. *)
Inductive Event :=
  | mousedown (idx : nat) (e : MouseEvent)
  | mousemove (idx : nat) (e : MouseEvent)
  | mouseup
  | mouseenter
  | mouseleave
  | documentMousemove (e : MouseEvent)
  | playing
  | animationFrame
  | hoverEffect.

(** One event.  The handlers of the masks are the closures of the current
    render.  The document-wide listener is the closure the effect keyed on
    [isHovering] registered last: [setIsHovering] does not reach it until
    React re-renders and runs that effect again, which it does when the flag
    differs from the one the listener saw.  The [playing] listener is only
    registered when there is a video element; an animation frame runs the
    oldest requested [draw]. *)
Definition step (c : Component) (ev : Event) : Component :=
  match ev with
  | mousedown idx e => handleMouseDown (state c) e idx c
  | mousemove idx e => handleMouseMove (state c) e idx c
  | mouseup => handleMouseUp (state c) c
  | mouseenter => handleMouseEnter c
  | mouseleave => handleMouseLeave c
  | documentMousemove e => handleMouseMoveGlobal (documentListener c) e c
  | playing =>
      match videoRef c with
      | Some _ => handlePlaying (state c) c
      | None => c
      end
  | animationFrame =>
      match frames c with
      | [] => c
      | (_, states) :: rest => draw states (with_frames rest c)
      end
  | hoverEffect =>
      if Bool.eqb (isHovering (state c)) (isHovering (documentListener c)) then c
      else with_documentListener (state c) c
  end.

Definition run (c : Component) (evs : list Event) : Component :=
  foldl step c evs.

(** The first render: [useState(false)], [useState([])] and
    [useState({ index: null, offsetX: 0, offsetY: 0 })]. *)
Definition initialState : State :=
  {| isHovering := false;
     maskStates := [];
     draggingState := {| index := None; offsetX := nzero; offsetY := nzero |} |}.

Definition mounted (c : Component) : Prop :=
  state c = initialState ∧ frames c = [].

Definition reachable (c : Component) : Prop :=
  ∃ c0 evs, mounted c0 ∧ c = run c0 evs.

(** ** Invariants *)

(** The mask being dragged has an element and a state. *)
Definition dragTargetLive (c : Component) : Prop :=
  ∀ i, index (draggingState (state c)) = Some i →
       is_Some (aget (maskRefs c) i) ∧ is_Some (aget (maskStates (state c)) i).

(** The document-wide listener is the one of the current hover flag. *)
Definition listenerInStep (c : Component) : Prop :=
  isHovering (documentListener c) = isHovering (state c).

(** No [playing] event: the trace is one after initialisation. *)
Definition interaction (ev : Event) : bool :=
  match ev with playing => false | _ => true end.

(** Neither a press nor a release: the drag, if any, goes on. *)
Definition keepsDrag (ev : Event) : bool :=
  match ev with mousedown _ _ | mouseup => false | _ => true end.

End Model.

Arguments MaskState : clear implicits.
Arguments MaskSlot : clear implicits.
Arguments DraggingState : clear implicits.
Arguments State : clear implicits.
Arguments MouseEvent : clear implicits.
Arguments Video : clear implicits.
Arguments Window : clear implicits.
Arguments CanvasOp : clear implicits.
Arguments CanvasEl : clear implicits.
Arguments DivEl : clear implicits.
Arguments MaskEl : clear implicits.
Arguments DOMRect : clear implicits.
Arguments Placement : clear implicits.
Arguments Component : clear implicits.
Arguments Event : clear implicits.

(** ** Concrete pages *)

(** The two end-to-end scenarios, on the browser's doubles. *)
Module Scenario.
Local Open Scope float_scope.

Definition video : Video float := {| videoWidth := 1920; videoHeight := 1080 |}.
Definition viewport : Window float := {| innerWidth := 1280; innerHeight := 720 |}.
Definition mask : MaskState float := {| x := 100; y := 100; w := 200; h := 100 |}.

(** A square viewport, which the video overflows on both sides. *)
Definition square : Window float := {| innerWidth := 1000; innerHeight := 1000 |}.

Definition press : MouseEvent float := {| clientX := 50; clientY := 60 |}.
Definition moveTo : MouseEvent float := {| clientX := 80; clientY := 90 |}.

End Scenario.

(** The page as the JSX lays it out in a 1000x500 viewport, where [1vw] is
    10px and [1vh] is 5px, on exact rationals. *)
Module Page.
Local Open Scope Q_scope.

Definition button (l t wd ht : Q) : option (MaskEl Q) :=
  Some {| cssLeft := l; cssTop := t; cssWidth := wd; cssHeight := ht;
          styleLeft := None; styleTop := None; styleTransform := None;
          styleCursor := None |}.

(** The six masks: [top-[15vh] left-[8vw] h-[20vh] w-[35vw]],
    [bottom-[3vh] left-[15vw] h-[20vh] w-[35vw]],
    [top-[15vh] right-[5vw] h-[20vh] w-[35vw]],
    [bottom-[23vh] left-[5vw] h-[10vh] w-[20vw]],
    [top-[28vh] left-[6vw] h-[12vh] w-[22vw]] and
    [top-[20vh] right-[10vw] h-[35vh] w-[60vw]]. *)
Definition buttons : list (option (MaskEl Q)) :=
  [ button 80 75 350 100; button 150 385 350 100; button 600 75 350 100;
    button 50 335 200 50; button 60 140 220 60; button 300 100 600 175 ].

(** A fresh [<canvas>] is 300x150. *)
Definition canvas : option (CanvasEl Q) :=
  Some {| canvasWidth := 300; canvasHeight := 150; context2d := true; ops := [] |}.

Definition div : option (DivEl Q) := Some {| textContent := ""; transform := None |}.

Definition mount : Component Q :=
  {| globalHudRef := div;
     videoRef := Some {| videoWidth := 1920; videoHeight := 1080 |};
     maskRefs := buttons;
     canvasRefs := replicate 6 canvas;
     coordsRefs := replicate 6 div;
     animationFrameRef := 0%nat;
     state := initialState;
     window := {| innerWidth := 1000; innerHeight := 500 |};
     mainOrigin := (0, 0);
     frames := [];
     nextHandle := 1%nat;
     documentListener := initialState |}.

(** The same page before the video element is there. *)
Definition noVideo : Component Q :=
  {| globalHudRef := div;
     videoRef := None;
     maskRefs := buttons;
     canvasRefs := replicate 6 canvas;
     coordsRefs := replicate 6 div;
     animationFrameRef := 0%nat;
     state := initialState;
     window := {| innerWidth := 1000; innerHeight := 500 |};
     mainOrigin := (0, 0);
     frames := [];
     nextHandle := 1%nat;
     documentListener := initialState |}.

(** After the video has started playing. *)
Definition started : Component Q := step mount playing.

(** The started page with mask 1 lacking its canvas, the canvas of mask 3
    giving no 2D context, and mask 4 lacking its coordinate label. *)
Definition noContext : option (CanvasEl Q) :=
  Some {| canvasWidth := 300; canvasHeight := 150; context2d := false; ops := [] |}.

Definition degraded : Component Q :=
  {| globalHudRef := div;
     videoRef := Some {| videoWidth := 1920; videoHeight := 1080 |};
     maskRefs := maskRefs started;
     canvasRefs := [canvas; None; canvas; noContext; canvas; canvas];
     coordsRefs := [div; div; div; div; None; div];
     animationFrameRef := 0%nat;
     state := state started;
     window := {| innerWidth := 1000; innerHeight := 500 |};
     mainOrigin := (0, 0);
     frames := [];
     nextHandle := 1%nat;
     documentListener := initialState |}.


Definition at_ (a b : Q) : MouseEvent Q := {| clientX := a; clientY := b |}.

End Page.

(** ** The cover fit, as the specification words it *)

(** The [object-fit: cover] placement of a video in a viewport, on exact
    rationals: the video is scaled by the larger of the two ratios, so that
    it covers the viewport, and centred. *)
Module Cover.
Local Open Scope Q_scope.

Definition scale (video : Video Q) (win : Window Q) : Q :=
  Qmax (innerWidth win / videoWidth video) (innerHeight win / videoHeight video).

Definition box (video : Video Q) (win : Window Q) : Placement Q :=
  let s := scale video win in
  {| dw := s * videoWidth video;
     dh := s * videoHeight video;
     dx := (innerWidth win - s * videoWidth video) / 2;
     dy := (innerHeight win - s * videoHeight video) / 2 |}.

(** The viewport position of the source pixel [(u, v)] of the video. *)
Definition toViewport (video : Video Q) (win : Window Q) (uv : Q * Q) : Q * Q :=
  (dx (box video win) + uv.1 * scale video win,
   dy (box video win) + uv.2 * scale video win).

(** Componentwise equality of rationals. *)
Definition eqPlacement (p q : Placement Q) : Prop :=
  dw p == dw q ∧ dh p == dh q ∧ dx p == dx q ∧ dy p == dy q.

End Cover.

(** The same wording over any arithmetic, with [max] taken by comparison and
    the formulas of the source rectangle as the specification writes them:
    [(x - dx) * videoW / dw] and so on. *)
Section CoverAnyArith.
Context {num : Type} `{!Arith num}.

Definition coverScale (video : Video num) (win : Window num) : num :=
  let a := (innerWidth win / videoWidth video)%num in
  let b := (innerHeight win / videoHeight video)%num in
  if (a >? b)%num then a else b.

Definition coverBox (video : Video num) (win : Window num) : Placement num :=
  let s := coverScale video win in
  {| dw := (s * videoWidth video)%num;
     dh := (s * videoHeight video)%num;
     dx := ((innerWidth win - s * videoWidth video) / ntwo)%num;
     dy := ((innerHeight win - s * videoHeight video) / ntwo)%num |}.

Definition coverSource (video : Video num) (win : Window num) (rect : MaskState num)
    : CanvasOp num :=
  let p := coverBox video win in
  drawImage
    ((x rect - dx p) * videoWidth video / dw p)%num
    ((y rect - dy p) * videoHeight video / dh p)%num
    (w rect * videoWidth video / dw p)%num
    (h rect * videoHeight video / dh p)%num
    nzero nzero (w rect) (h rect).

End CoverAnyArith.

(** ** Teardown *)

Section Teardown.
Context {num : Type} `{!Arith num}.

(** [cancelAnimationFrame(handle)]: the frame requested under that handle
    will not run. *)
Definition cancelAnimationFrame (handle : nat) (c : Component num) : Component num :=
  with_frames (filter (λ f, f.1 ≠ handle) (frames c)) c.

(** The cleanup of the effect at line 163, run when the component unmounts:
    [if (animationFrameRef.current) cancelAnimationFrame(...)]. *)
Definition cleanup (c : Component num) : Component num :=
  if decide (animationFrameRef c = 0) then c
  else cancelAnimationFrame (animationFrameRef c) c.

(** What the scheduler holds: the video ref, the requested frames, the
    handle counter and the ref with the last handle. *)
Definition scheduler (c : Component num) :=
  (videoRef c, frames c, nextHandle c, animationFrameRef c).

(** The number of [playing] events in a trace. *)
Definition playbackStarts (evs : list (Event num)) : nat :=
  length (filter (λ ev, interaction ev = false) evs).

(** ** Further invariants *)

(** The requested frames carry increasing handles, and the ref holds the
    handle requested last. *)
Definition framesInOrder (c : Component num) : Prop :=
  0 < nextHandle c
  ∧ (frames c = []
     ∨ ∃ older states,
         frames c = older ++ [(animationFrameRef c, states)]
         ∧ Forall (λ f, f.1 < animationFrameRef c) older
         ∧ 0 < animationFrameRef c < nextHandle c).

(** Every requested frame is a [draw] that saw no mask state. *)
Definition framesSawNothing (c : Component num) : Prop :=
  Forall (λ f : nat * list (option (MaskSlot num)), f.2 = []) (frames c).

(** Every mask state has its four fields, belongs to a mask element, and
    that element is anchored at the origin of its containing block and
    translated to the position the state records. *)
Definition presentationTracksState (c : Component num) : Prop :=
  ∀ i s, aget (maskStates (state c)) i = Some s →
    ∃ m mask, s = full m
      ∧ aget (maskRefs c) i = Some mask
      ∧ styleLeft mask = Some nzero
      ∧ styleTop mask = Some nzero
      ∧ styleTransform mask = Some (x m, y m).

End Teardown.

(** * Sparse arrays *)

Section Arrays.
Context {A : Type}.
Implicit Types (l : list (option A)) (i j : nat) (v : A).

Lemma aget_lt_length l i : is_Some (aget l i) → i < length l.
Proof.
  unfold aget. destruct (l !! i) as [o|] eqn:E; [|by intros [? ?]].
  intros _. by eapply lookup_lt_Some.
Qed.

Lemma aget_insert_ne l i j (o : option A) : i ≠ j → aget (<[i := o]> l) j = aget l j.
Proof. intros Hne. unfold aget. by rewrite list_lookup_insert_ne. Qed.

Lemma aget_insert_eq l i (o : option A) : i < length l → aget (<[i := o]> l) i = o.
Proof. intros Hlt. unfold aget. by rewrite list_lookup_insert_eq. Qed.

Lemma aget_insert_beyond l i (o : option A) : length l ≤ i → <[i := o]> l = l.
Proof. apply list_insert_ge. Qed.

Lemma aget_ge l i : length l ≤ i → aget l i = None.
Proof. intros Hle. unfold aget. by rewrite lookup_ge_None_2. Qed.

Lemma aget_aset_eq l i v : aget (aset l i v) i = Some v.
Proof.
  unfold aset. case_decide as Hlt.
  - by apply aget_insert_eq.
  - unfold aget. rewrite lookup_app_r by lia.
    rewrite lookup_app_r; rewrite length_replicate; [|lia].
    by replace (i - length l - (i - length l)) with 0 by lia.
Qed.

Lemma aget_aset_ne l i j v : i ≠ j → aget (aset l i v) j = aget l j.
Proof.
  intros Hne. unfold aset. case_decide as Hlt.
  - by apply aget_insert_ne.
  - unfold aget. destruct (decide (j < length l)) as [Hj|Hj].
    + by rewrite lookup_app_l.
    + rewrite lookup_app_r by lia. rewrite (lookup_ge_None_2 l j) by lia.
      destruct (decide (j < i)) as [Hji|Hji].
      * rewrite lookup_app_l by (rewrite length_replicate; lia).
        rewrite lookup_replicate_2 by lia. done.
      * rewrite lookup_ge_None_2; [done|].
        rewrite length_app, length_replicate. simpl. lia.
Qed.

Lemma length_aset l i v : length (aset l i v) = length l `max` S i.
Proof.
  unfold aset. case_decide.
  - rewrite length_insert. lia.
  - rewrite !length_app, length_replicate. simpl. lia.
Qed.

(** A loop whose body leaves a part of the state alone leaves it alone. *)
Lemma forEachFrom_preserves {St B} (proj : St → B) (f : A → nat → St → St) :
  (∀ a i s, proj (f a i s) = proj s) →
  ∀ l i s, proj (forEachFrom f i l s) = proj s.
Proof.
  intros Hf l. induction l as [|o l IH]; intros i s; simpl; [done|].
  rewrite IH. destruct o; [apply Hf|done].
Qed.

End Arrays.

(** * What each handler leaves alone *)

Section Frames.
Context {num : Type} `{!Arith num, !Builtins num}.
Implicit Types (c : Component num) (s : State num) (e : MouseEvent num).
Implicit Types (states : list (option (MaskSlot num))) (i j idx : nat).

Lemma updateCoords_state states idx c : state (updateCoords states idx c) = state c.
Proof. unfold updateCoords. by repeat case_match. Qed.

Lemma updateCoords_maskRefs states idx c : maskRefs (updateCoords states idx c) = maskRefs c.
Proof. unfold updateCoords. by repeat case_match. Qed.

Lemma updateCoords_globalHud states idx c :
  globalHudRef (updateCoords states idx c) = globalHudRef c.
Proof. unfold updateCoords. by repeat case_match. Qed.

Lemma drawMask_state video states m idx c :
  state (drawMask video states m idx c) = state c.
Proof. unfold drawMask. repeat case_match; try done. by rewrite updateCoords_state. Qed.

Lemma drawMask_maskRefs video states m idx c :
  maskRefs (drawMask video states m idx c) = maskRefs c.
Proof. unfold drawMask. repeat case_match; try done. by rewrite updateCoords_maskRefs. Qed.

Lemma drawMask_globalHud video states m idx c :
  globalHudRef (drawMask video states m idx c) = globalHudRef c.
Proof. unfold drawMask. repeat case_match; try done. by rewrite updateCoords_globalHud. Qed.

Lemma draw_state states c : state (draw states c) = state c.
Proof.
  unfold draw. destruct (videoRef c) as [video|]; [|done]. simpl.
  unfold forEach. apply (forEachFrom_preserves state). intros. apply drawMask_state.
Qed.

Lemma draw_maskRefs states c : maskRefs (draw states c) = maskRefs c.
Proof.
  unfold draw. destruct (videoRef c) as [video|]; [|done]. simpl.
  unfold forEach. apply (forEachFrom_preserves maskRefs). intros. apply drawMask_maskRefs.
Qed.

Lemma draw_globalHud states c : globalHudRef (draw states c) = globalHudRef c.
Proof.
  unfold draw. destruct (videoRef c) as [video|]; [|done]. simpl.
  unfold forEach. apply (forEachFrom_preserves globalHudRef). intros. apply drawMask_globalHud.
Qed.

Lemma initCanvases_state states c : state (initCanvases states c) = state c.
Proof.
  unfold initCanvases, forEach. apply (forEachFrom_preserves state).
  intros. by case_match.
Qed.

Lemma initCanvases_maskRefs states c : maskRefs (initCanvases states c) = maskRefs c.
Proof.
  unfold initCanvases, forEach. apply (forEachFrom_preserves maskRefs).
  intros. by case_match.
Qed.

Lemma initCanvases_globalHud states c : globalHudRef (initCanvases states c) = globalHudRef c.
Proof.
  unfold initCanvases, forEach. apply (forEachFrom_preserves globalHudRef).
  intros. by case_match.
Qed.

Lemma handlePlaying_state s c : state (handlePlaying s c) = state (initMasks c).
Proof. unfold handlePlaying. by rewrite draw_state, initCanvases_state. Qed.

Lemma handlePlaying_maskRefs s c : maskRefs (handlePlaying s c) = maskRefs (initMasks c).
Proof. unfold handlePlaying. by rewrite draw_maskRefs, initCanvases_maskRefs. Qed.

Lemma handlePlaying_draggingState s c :
  draggingState (state (handlePlaying s c)) = draggingState (state c).
Proof. by rewrite handlePlaying_state. Qed.

Lemma handlePlaying_isHovering s c :
  isHovering (state (handlePlaying s c)) = isHovering (state c).
Proof. by rewrite handlePlaying_state. Qed.

Lemma handlePlaying_globalHud s c : globalHudRef (handlePlaying s c) = globalHudRef c.
Proof. unfold handlePlaying. by rewrite draw_globalHud, initCanvases_globalHud. Qed.

Lemma handleMouseMove_inactive s e idx c :
  index (draggingState s) ≠ Some idx → handleMouseMove s e idx c = c.
Proof. intros Hne. unfold handleMouseMove. by case_decide. Qed.

Lemma handleMouseMove_state s e idx c :
  index (draggingState s) = Some idx →
  state (handleMouseMove s e idx c)
  = setMaskStates
      (aset (maskStates s) idx
         (spread (aget (maskStates s) idx)
            (clientX e - offsetX (draggingState s))%num
            (clientY e - offsetY (draggingState s))%num))
      (state c).
Proof. intros Hi. unfold handleMouseMove. rewrite decide_True by done. by case_match. Qed.

Lemma slot_x_spread (o : option (MaskSlot num)) nx ny : slot_x (spread o nx ny) = nx.
Proof. by destruct o as [[]|]. Qed.

Lemma slot_y_spread (o : option (MaskSlot num)) nx ny : slot_y (spread o nx ny) = ny.
Proof. by destruct o as [[]|]. Qed.

(** An event that is neither a press nor a release keeps the drag. *)
Lemma step_keepsDrag c ev :
  keepsDrag ev = true → draggingState (state (step c ev)) = draggingState (state c).
Proof.
  destruct ev as [idx e|idx e| | | |e| | |]; simpl; try done; intros _.
  - unfold handleMouseMove. case_decide; [|done]. by case_match.
  - unfold handleMouseMoveGlobal. by case_match.
  - destruct (videoRef c); [|done]. apply handlePlaying_draggingState.
  - destruct (frames c) as [|[h states] rest]; [done|]. by rewrite draw_state.
  - by destruct (Bool.eqb _ _).
Qed.

Lemma run_keepsDrag evs c :
  forallb keepsDrag evs = true → draggingState (state (run c evs)) = draggingState (state c).
Proof.
  revert c. induction evs as [|ev evs IH]; intros c Hall; simpl in *; [done|].
  apply andb_prop in Hall as [Hev Hall].
  unfold run in *. simpl. rewrite IH by done. by apply step_keepsDrag.
Qed.

End Frames.

(** * Initialisation *)

Section Init.
Context {num : Type} `{!Arith num, !Builtins num}.
Implicit Types (c : Component num) (s : State num) (origin : num * num).
Implicit Types (acc : list (option (MaskSlot num))) (ms l pre : list (option (MaskEl num))).

(** The loop of [initMasks] re-anchors every mask element. *)
Lemma initMask_loop_masks origin l pre acc :
  (forEachFrom (initMask origin) (length pre) l (acc, pre ++ l)).2
  = pre ++ (fmap (M:=option) (reanchor origin) <$> l).
Proof.
  revert pre acc. induction l as [|o l IH]; intros pre acc; simpl; [done|].
  destruct o as [mask|]; simpl.
  - change (initMask origin mask (length pre) (acc, pre ++ Some mask :: l))
      with (aset acc (length pre) (full (measure origin mask)),
            <[length pre := Some (reanchor origin mask)]> (pre ++ Some mask :: l)).
    replace (<[length pre := Some (reanchor origin mask)]> (pre ++ Some mask :: l))
      with ((pre ++ [Some (reanchor origin mask)]) ++ l).
    2:{ rewrite <- (Nat.add_0_r (length pre)), insert_app_r. simpl.
        by rewrite <- app_assoc. }
    replace (S (length pre)) with (length (pre ++ [Some (reanchor origin mask)]))
      by (rewrite length_app; simpl; lia).
    rewrite IH. by rewrite <- app_assoc.
  - replace (pre ++ None :: l) with ((pre ++ [None]) ++ l) by (by rewrite <- app_assoc).
    replace (S (length pre)) with (length (pre ++ [@None (MaskEl num)]))
      by (rewrite length_app; simpl; lia).
    rewrite IH. by rewrite <- app_assoc.
Qed.

(** The loop of [initMasks] records the measured rectangle of every mask
    element, at the index of the element. *)
Lemma initMask_loop_states origin l k acc ms j :
  length acc ≤ k →
  aget (forEachFrom (initMask origin) k l (acc, ms)).1 j
  = if decide (j < k) then aget acc j
    else (λ mask, full (measure origin mask)) <$> aget l (j - k).
Proof.
  revert k acc ms. induction l as [|o l IH]; intros k acc ms Hlen; simpl.
  - case_decide; [done|]. rewrite aget_ge by lia. done.
  - destruct o as [mask|].
    + change (initMask origin mask k (acc, ms))
        with (aset acc k (full (measure origin mask)),
              <[k := Some (reanchor origin mask)]> ms).
      rewrite IH by (rewrite length_aset; lia).
      destruct (decide (j < k)) as [Hjk|Hjk].
      * rewrite decide_True by lia. apply aget_aset_ne. lia.
      * destruct (decide (j = k)) as [->|Hne].
        -- rewrite decide_True by lia. rewrite aget_aset_eq.
           by replace (k - k) with 0 by lia.
        -- rewrite decide_False by lia.
           by replace (j - k) with (S (j - S k)) by lia.
    + rewrite IH by lia.
      destruct (decide (j < k)) as [Hjk|Hjk].
      * by rewrite decide_True by lia.
      * destruct (decide (j = k)) as [->|Hne].
        -- rewrite decide_True by lia. rewrite aget_ge by lia.
           by replace (k - k) with 0 by lia.
        -- rewrite decide_False by lia.
           by replace (j - k) with (S (j - S k)) by lia.
Qed.


Lemma initMasks_maskRefs c :
  maskRefs (initMasks c) = fmap (M:=option) (reanchor (mainOrigin c)) <$> maskRefs c.
Proof.
  unfold initMasks, forEach. simpl.
  apply (initMask_loop_masks (mainOrigin c) (maskRefs c) [] []).
Qed.

Lemma initMasks_maskStates c j :
  aget (maskStates (state (initMasks c))) j
  = (λ mask, full (measure (mainOrigin c) mask)) <$> aget (maskRefs c) j.
Proof.
  unfold initMasks, forEach. simpl.
  rewrite initMask_loop_states by (simpl; lia).
  rewrite decide_False by lia. by rewrite Nat.sub_0_r.
Qed.

Lemma initMasks_draggingState c :
  draggingState (state (initMasks c)) = draggingState (state c).
Proof. done. Qed.

Lemma initMasks_isHovering c : isHovering (state (initMasks c)) = isHovering (state c).
Proof. done. Qed.

Lemma aget_fmap {A B} (f : A → B) (l : list (option A)) j :
  aget (fmap (M:=option) f <$> l) j = f <$> aget l j.
Proof. unfold aget. rewrite list_lookup_fmap. by destruct (l !! j) as [[]|]. Qed.

Lemma is_Some_aget_insert {A} (l : list (option A)) i j (v : A) :
  is_Some (aget l j) → is_Some (aget (<[i := Some v]> l) j).
Proof.
  intros Hj. destruct (decide (i = j)) as [->|Hne].
  - rewrite aget_insert_eq; [done|]. by apply aget_lt_length.
  - by rewrite aget_insert_ne.
Qed.

End Init.

(** * Dragging *)

(** C3: a pointer-down on mask [i] at [p] records the offset [p - (x, y)] of
    its mask state, and every pointer-move on mask [i] that follows while the
    drag goes on (no press and no release in between) puts the mask at the
    pointer minus that offset.  On the browser's doubles: a press at (50,60)
    on mask 2 standing at (40,45) records (10,15), and the move to (80,90)
    puts the mask at (70,75). *)
Theorem drag_follows_pointer :
  (∀ (num : Type) (A : Arith num) (B : Builtins num)
     (c : Component num) (i : nat) (p : MouseEvent num)
     (mask : MaskEl num) (m : MaskSlot num),
     aget (maskRefs c) i = Some mask →
     aget (maskStates (state c)) i = Some m →
     let pressed := step c (mousedown i p) in
     draggingState (state pressed)
       = {| index := Some i;
            offsetX := (clientX p - slot_x m)%num;
            offsetY := (clientY p - slot_y m)%num |}
     ∧ ∀ (evs : list (Event num)) (q : MouseEvent num),
         forallb keepsDrag evs = true →
         ∃ m', aget (maskStates (state (step (run pressed evs) (mousemove i q)))) i = Some m'
           ∧ slot_x m' = (clientX q - (clientX p - slot_x m))%num
           ∧ slot_y m' = (clientY q - (clientY p - slot_y m))%num)
  ∧ (∀ (c : Component float) (mask : MaskEl float) (w0 h0 : float),
       aget (maskRefs c) 2 = Some mask →
       aget (maskStates (state c)) 2
         = Some (full {| x := 40%float; y := 45%float; w := w0; h := h0 |}) →
       let pressed := handleMouseDown (state c) Scenario.press 2 c in
       let moved := handleMouseMove (state pressed) Scenario.moveTo 2 pressed in
       draggingState (state pressed)
         = {| index := Some 2; offsetX := 10%float; offsetY := 15%float |}
       ∧ aget (maskStates (state moved)) 2
         = Some (full {| x := 70%float; y := 75%float; w := w0; h := h0 |})).
Proof.
  split.
  - intros num A B c i p mask m Hmask Hm pressed.
    assert (Hd : draggingState (state pressed)
                 = {| index := Some i;
                      offsetX := (clientX p - slot_x m)%num;
                      offsetY := (clientY p - slot_y m)%num |}).
    { subst pressed. simpl. unfold handleMouseDown. by rewrite Hmask, Hm. }
    split; [exact Hd|].
    intros evs q Hevs. simpl.
    pose proof (run_keepsDrag evs pressed Hevs) as Hkeep. rewrite Hd in Hkeep.
    rewrite handleMouseMove_state by (by rewrite Hkeep).
    simpl. rewrite aget_aset_eq, Hkeep. simpl.
    eexists. split; [done|]. by rewrite slot_x_spread, slot_y_spread.
  - intros c mask w0 h0 Hmask Hm pressed moved.
    assert (Hd : draggingState (state pressed)
                 = {| index := Some 2; offsetX := 10%float; offsetY := 15%float |}).
    { subst pressed. unfold handleMouseDown. by rewrite Hmask, Hm. }
    split; [exact Hd|].
    assert (Hs : maskStates (state pressed) = maskStates (state c)).
    { subst pressed. unfold handleMouseDown. by rewrite Hmask, Hm. }
    subst moved. rewrite handleMouseMove_state by (by rewrite Hd).
    simpl. rewrite aget_aset_eq, Hs, Hm, Hd. done.
Qed.

(** The press of C3 on the example page: mask 2 stands at (600,75). *)
Lemma drag_follows_pointer_witness :
  let pressed := step Page.started (mousedown 2 (Page.at_ 610 80)) in
  draggingState (state pressed)
    = {| index := Some 2; offsetX := 10%Q; offsetY := 5%Q |}
  ∧ ∃ m', aget (maskStates (state
              (step (run pressed [documentMousemove (Page.at_ 611 80); animationFrame])
                    (mousemove 2 (Page.at_ 500 90))))) 2 = Some m'
      ∧ slot_x m' = (500 - (610 - 600))%Q
      ∧ slot_y m' = (90 - (80 - 75))%Q.
Proof.
  destruct (proj1 drag_follows_pointer Q _ _ Page.started 2 (Page.at_ 610 80)
              (reanchor (0, 0)%Q
                 {| cssLeft := 600%Q; cssTop := 75%Q; cssWidth := 350%Q; cssHeight := 100%Q;
                    styleLeft := None; styleTop := None; styleTransform := None;
                    styleCursor := None |})
              (full {| x := 600%Q; y := 75%Q; w := 350%Q; h := 100%Q |})
              eq_refl eq_refl) as [Hd Hmove].
  split; [exact Hd|].
  exact (Hmove [documentMousemove (Page.at_ 611 80); animationFrame] (Page.at_ 500 90) eq_refl).
Defined.

(** C4: a pointer-move on the mask being dragged modifies the state of that
    mask only: every other element of [maskStates] reads as before. *)
Theorem drag_moves_one_mask {num : Type} `{!Arith num, !Builtins num}
    (c : Component num) (i j : nat) (e : MouseEvent num) :
  index (draggingState (state c)) = Some i →
  j ≠ i →
  aget (maskStates (state (step c (mousemove i e)))) j = aget (maskStates (state c)) j.
Proof.
  intros Hi Hne. simpl. rewrite handleMouseMove_state by done. simpl.
  by apply aget_aset_ne.
Qed.

Lemma drag_moves_one_mask_witness :
  let c := step Page.started (mousedown 2 (Page.at_ 610 80)) in
  aget (maskStates (state (step c (mousemove 2 (Page.at_ 500 90))))) 4
  = aget (maskStates (state c)) 4.
Proof.
  intros c. apply (drag_moves_one_mask c 2 4 (Page.at_ 500 90)); [reflexivity|lia].
Defined.

(** C6: a pointer-up that releases a drag leaves [draggingState.index] at
    [null], and while the index is [null] a pointer-move on any mask changes
    no mask state (it changes nothing at all). *)
Theorem release_then_moves_are_inert {num : Type} `{!Arith num, !Builtins num}
    (c : Component num) :
  (∀ i, index (draggingState (state c)) = Some i →
        index (draggingState (state (step c mouseup))) = None)
  ∧ (index (draggingState (state c)) = None →
     ∀ i e, step c (mousemove i e) = c
            ∧ maskStates (state (step c (mousemove i e))) = maskStates (state c)).
Proof.
  split.
  - intros i Hi. simpl. unfold handleMouseUp. rewrite Hi. done.
  - intros Hnone i e. simpl.
    rewrite handleMouseMove_inactive by (by rewrite Hnone). done.
Qed.

Lemma release_then_moves_are_inert_witness :
  let dragging := step Page.started (mousedown 2 (Page.at_ 610 80)) in
  let released := step dragging mouseup in
  index (draggingState (state released)) = None
  ∧ maskStates (state (step released (mousemove 2 (Page.at_ 500 90))))
    = maskStates (state released).
Proof.
  intros dragging released. split.
  - exact (proj1 (release_then_moves_are_inert dragging) 2 eq_refl).
  - exact (proj2 (proj2 (release_then_moves_are_inert released) eq_refl 2 (Page.at_ 500 90))).
Defined.

(** * Invariants of the reachable components *)

Section Invariants.
Context {num : Type} `{!Arith num, !Builtins num}.
Implicit Types (c : Component num) (s : State num) (e : MouseEvent num).
Implicit Types (i j idx : nat) (ev : Event num).

(** A property that holds when the component mounts and that every event
    keeps holds of every reachable component. *)
Lemma reachable_ind (P : Component num → Prop) :
  (∀ c, mounted c → P c) →
  (∀ c ev, P c → P (step c ev)) →
  ∀ c, reachable c → P c.
Proof.
  intros Hinit Hstep c (c0 & evs & Hm & ->).
  apply Hinit in Hm. revert c0 Hm.
  induction evs as [|ev evs IH]; intros c0 Hc0; [done|].
  unfold run. simpl. apply IH. by apply Hstep.
Qed.

Lemma step_dragTargetLive c ev : dragTargetLive c → dragTargetLive (step c ev).
Proof.
  intros Hinv. destruct ev as [idx e|idx e| | | |e| | |]; simpl.
  - unfold handleMouseDown.
    destruct (aget (maskRefs c) idx) as [mask|] eqn:Hmask; [|done].
    destruct (aget (maskStates (state c)) idx) as [m|] eqn:Hm; [|done].
    intros i Hi. simpl in Hi. injection Hi as <-. simpl. split.
    + apply is_Some_aget_insert. by rewrite Hmask.
    + by rewrite Hm.
  - unfold handleMouseMove. case_decide as Hidx; [|done].
    intros i Hi.
    assert (i = idx) as ->.
    { destruct (aget _ idx) in Hi; simpl in Hi; congruence. }
    destruct (Hinv idx Hidx) as [Hmask _]. simpl.
    destruct (aget (maskRefs c) idx) as [mask|] eqn:E; [|by destruct Hmask].
    simpl. split.
    + apply is_Some_aget_insert. by rewrite E.
    + by rewrite aget_aset_eq.
  - unfold handleMouseUp. destruct (index (draggingState (state c))); [|done].
    intros i Hi. by destruct (aget _ n) in Hi.
  - done.
  - done.
  - unfold handleMouseMoveGlobal. by destruct (negb _).
  - destruct (videoRef c) as [video|]; [|done].
    intros i Hi. rewrite handlePlaying_draggingState in Hi.
    destruct (Hinv i Hi) as [[mask Hmask] _].
    rewrite handlePlaying_maskRefs, handlePlaying_state, initMasks_maskRefs.
    rewrite aget_fmap, initMasks_maskStates, Hmask. by split.
  - destruct (frames c) as [|[hd states] rest]; [done|].
    intros i Hi. rewrite draw_state in Hi. rewrite draw_maskRefs, draw_state.
    by apply Hinv.
  - by destruct (Bool.eqb _ _).
Qed.

Lemma reachable_dragTargetLive c : reachable c → dragTargetLive c.
Proof.
  apply reachable_ind.
  - intros c0 [Hs _] i Hi. by rewrite Hs in Hi.
  - intros c0 ev. apply step_dragTargetLive.
Qed.

(** An event other than [playing] keeps the size of every mask state. *)
Lemma step_keeps_size c ev i (m : MaskState num) :
  interaction ev = true →
  aget (maskStates (state c)) i = Some (full m) →
  ∃ m', aget (maskStates (state (step c ev))) i = Some (full m')
        ∧ w m' = w m ∧ h m' = h m.
Proof.
  intros Hev Hm. destruct ev as [idx e|idx e| | | |e| | |]; simpl; try done.
  - exists m. unfold handleMouseDown. by repeat case_match.
  - destruct (decide (index (draggingState (state c)) = Some idx)) as [Hidx|Hidx].
    + rewrite handleMouseMove_state by done. simpl.
      destruct (decide (idx = i)) as [->|Hne].
      * rewrite aget_aset_eq, Hm. simpl. by eexists.
      * rewrite aget_aset_ne by done. by exists m.
    + rewrite handleMouseMove_inactive by done. by exists m.
  - exists m. unfold handleMouseUp. by repeat case_match.
  - by exists m.
  - by exists m.
  - exists m. unfold handleMouseMoveGlobal. by case_match.
  - exists m. destruct (frames c) as [|[hd states] rest]; [done|].
    by rewrite draw_state.
  - exists m. by destruct (Bool.eqb _ _).
Qed.

Lemma run_keeps_size evs c i (m : MaskState num) :
  forallb interaction evs = true →
  aget (maskStates (state c)) i = Some (full m) →
  ∃ m', aget (maskStates (state (run c evs))) i = Some (full m')
        ∧ w m' = w m ∧ h m' = h m.
Proof.
  revert c m. induction evs as [|ev evs IH]; intros c m Hall Hm; simpl in *.
  - by exists m.
  - apply andb_prop in Hall as [Hev Hall].
    destruct (step_keeps_size c ev i m Hev Hm) as (m1 & Hm1 & Hw1 & Hh1).
    destruct (IH (step c ev) m1 Hall Hm1) as (m2 & Hm2 & Hw2 & Hh2).
    exists m2. split; [done|]. split; congruence.
Qed.

End Invariants.

(** C5: the component has one [draggingState]; in every reachable component
    its index is [null] or the index of one mask, which has an element and a
    state, so that at most one mask is being dragged; and a pointer-move on
    a mask that is not the one being dragged changes nothing. *)
Theorem one_drag_at_a_time {num : Type} `{!Arith num, !Builtins num}
    (c : Component num) :
  reachable c →
  (∀ i j, index (draggingState (state c)) = Some i →
          index (draggingState (state c)) = Some j → i = j)
  ∧ (∀ i, index (draggingState (state c)) = Some i →
          is_Some (aget (maskRefs c) i) ∧ is_Some (aget (maskStates (state c)) i))
  ∧ (∀ i e, index (draggingState (state c)) ≠ Some i → step c (mousemove i e) = c)
  ∧ (∀ i e, maskStates (state (step c (mousemove i e))) ≠ maskStates (state c) →
            index (draggingState (state c)) = Some i).
Proof.
  intros Hreach. repeat split.
  - congruence.
  - by apply (reachable_dragTargetLive c Hreach).
  - by apply (reachable_dragTargetLive c Hreach).
  - intros i e Hne. simpl. by apply handleMouseMove_inactive.
  - intros i e Hchanged.
    destruct (decide (index (draggingState (state c)) = Some i)) as [|Hne]; [done|].
    exfalso. apply Hchanged. simpl. by rewrite handleMouseMove_inactive.
Qed.

(** On the example page, while mask 2 is dragged, mask 2 is the only target
    and a move on mask 4 changes nothing. *)
Lemma one_drag_at_a_time_witness :
  let c := run Page.mount [playing; mousedown 2 (Page.at_ 610 80)] in
  index (draggingState (state c)) = Some 2
  ∧ is_Some (aget (maskRefs c) 2)
  ∧ step c (mousemove 4 (Page.at_ 70 150)) = c.
Proof.
  intros c.
  assert (Hreach : reachable c).
  { exists Page.mount, [playing; mousedown 2 (Page.at_ 610 80)]. by repeat split. }
  destruct (one_drag_at_a_time c Hreach) as (_ & Hlive & Hidle & _).
  split; [reflexivity|]. split.
  - exact (proj1 (Hlive 2 eq_refl)).
  - apply Hidle. discriminate.
Defined.

(** C10: after the playback-start initialisation, pointer-downs,
    pointer-moves, pointer-ups, hover changes, document-wide moves and
    render frames keep the width and the height of every mask state at the
    values measured from the bounding rectangle of its element: a drag
    writes [x] and [y] only. *)
Theorem size_fixed_after_init {num : Type} `{!Arith num, !Builtins num}
    (c : Component num) (i : nat) (mask : MaskEl num) (evs : list (Event num)) :
  aget (maskRefs c) i = Some mask →
  forallb interaction evs = true →
  ∃ m, aget (maskStates (state (run (handlePlaying (state c) c) evs))) i = Some (full m)
       ∧ w m = rwidth (getBoundingClientRect (mainOrigin c) mask)
       ∧ h m = rheight (getBoundingClientRect (mainOrigin c) mask).
Proof.
  intros Hmask Hevs.
  apply (run_keeps_size evs _ i (measure (mainOrigin c) mask) Hevs).
  by rewrite handlePlaying_state, initMasks_maskStates, Hmask.
Qed.

Lemma size_fixed_after_init_witness :
  ∃ m, aget (maskStates (state
          (run (handlePlaying (state Page.mount) Page.mount)
               [animationFrame; mouseenter; mousedown 2 (Page.at_ 610 80);
                mousemove 2 (Page.at_ 500 90); documentMousemove (Page.at_ 500 90);
                mouseup; mouseleave]))) 2 = Some (full m)
       ∧ w m = 350%Q ∧ h m = 100%Q.
Proof.
  exact (size_fixed_after_init Page.mount 2
           {| cssLeft := 600%Q; cssTop := 75%Q; cssWidth := 350%Q; cssHeight := 100%Q;
              styleLeft := None; styleTop := None; styleTransform := None;
              styleCursor := None |}
           [animationFrame; mouseenter; mousedown 2 (Page.at_ 610 80);
            mousemove 2 (Page.at_ 500 90); documentMousemove (Page.at_ 500 90);
            mouseup; mouseleave] eq_refl eq_refl).
Defined.

(** * The render loop *)

Section Render.
Context {num : Type} `{!Arith num, !Builtins num}.
Implicit Types (c : Component num) (video : Video num) (m : MaskSlot num).
Implicit Types (states l : list (option (MaskSlot num))) (j k idx : nat).

Lemma updateCoords_canvasRefs states idx c :
  canvasRefs (updateCoords states idx c) = canvasRefs c.
Proof. unfold updateCoords. by repeat case_match. Qed.

Lemma updateCoords_window states idx c : window (updateCoords states idx c) = window c.
Proof. unfold updateCoords. by repeat case_match. Qed.

Lemma drawMask_window video states m idx c :
  window (drawMask video states m idx c) = window c.
Proof. unfold drawMask. repeat case_match; try done. by rewrite updateCoords_window. Qed.

Lemma drawMask_frames video states m idx c :
  frames (drawMask video states m idx c) = frames c
  ∧ nextHandle (drawMask video states m idx c) = nextHandle c.
Proof. unfold drawMask, updateCoords. by repeat case_match. Qed.

(** One iteration touches the canvas of its own index only. *)
Lemma drawMask_canvas video states m k c j :
  aget (canvasRefs (drawMask video states m k c)) j
  = if decide (j = k) then painted video (window c) m (aget (canvasRefs c) k)
    else aget (canvasRefs c) j.
Proof.
  unfold drawMask, painted.
  destruct (aget (canvasRefs c) k) as [cv|] eqn:Hcv; simpl.
  - destruct (context2d cv) eqn:Hctx.
    + rewrite updateCoords_canvasRefs. simpl. case_decide as Hj.
      * subst j. apply aget_insert_eq, aget_lt_length. by rewrite Hcv.
      * by apply aget_insert_ne.
    + case_decide; [by subst|done].
  - case_decide; [by subst|done].
Qed.

(** One iteration touches the label of its own index only. *)
Lemma drawMask_coords video states m k c j :
  aget states k = Some m →
  aget (coordsRefs (drawMask video states m k c)) j
  = if decide (j = k) then labelled m (aget (canvasRefs c) k) (aget (coordsRefs c) k)
    else aget (coordsRefs c) j.
Proof.
  intros Hm. unfold drawMask, labelled.
  destruct (aget (canvasRefs c) k) as [cv|] eqn:Hcv; simpl.
  - destruct (context2d cv) eqn:Hctx.
    + unfold updateCoords. simpl. rewrite Hm.
      destruct (aget (coordsRefs c) k) as [d|] eqn:Hd; simpl.
      * case_decide as Hj.
        -- subst j. apply aget_insert_eq, aget_lt_length. by rewrite Hd.
        -- by apply aget_insert_ne.
      * case_decide; [by subst|done].
    + case_decide; [by subst|done].
  - case_decide; [by subst|done].
Qed.

(** The loop of [draw], started at index [k] on the rest [l] of the mask
    states. *)
Lemma draw_loop_canvas video states l k c j :
  aget (canvasRefs (forEachFrom (drawMask video states) k l c)) j
  = if decide (k ≤ j) then
      match aget l (j - k) with
      | Some m => painted video (window c) m (aget (canvasRefs c) j)
      | None => aget (canvasRefs c) j
      end
    else aget (canvasRefs c) j.
Proof.
  revert k c. induction l as [|o l IH]; intros k c; simpl.
  - by case_decide.
  - rewrite IH. destruct o as [m|].
    + rewrite drawMask_window, !drawMask_canvas.
      destruct (decide (j = k)) as [->|Hne].
      * rewrite decide_False by lia. rewrite decide_True by lia.
        by replace (k - k) with 0 by lia.
      * destruct (decide (k ≤ j)) as [Hkj|Hkj].
        -- rewrite decide_True by lia. by replace (j - k) with (S (j - S k)) by lia.
        -- by rewrite decide_False by lia.
    + destruct (decide (j = k)) as [->|Hne].
      * rewrite decide_False by lia. rewrite decide_True by lia.
        by replace (k - k) with 0 by lia.
      * destruct (decide (k ≤ j)) as [Hkj|Hkj].
        -- rewrite decide_True by lia. by replace (j - k) with (S (j - S k)) by lia.
        -- by rewrite decide_False by lia.
Qed.

Lemma draw_loop_coords video states l k c j :
  (∀ n m, aget l n = Some m → aget states (k + n) = Some m) →
  aget (coordsRefs (forEachFrom (drawMask video states) k l c)) j
  = if decide (k ≤ j) then
      match aget l (j - k) with
      | Some m => labelled m (aget (canvasRefs c) j) (aget (coordsRefs c) j)
      | None => aget (coordsRefs c) j
      end
    else aget (coordsRefs c) j.
Proof.
  revert k c. induction l as [|o l IH]; intros k c Hl; simpl.
  - by case_decide.
  - rewrite IH.
    2:{ intros n m Hn. replace (S k + n) with (k + S n) by lia. by apply Hl. }
    destruct o as [m|].
    + assert (Hm : aget states k = Some m).
      { rewrite <- (Nat.add_0_r k). by apply Hl. }
      rewrite !drawMask_coords, drawMask_canvas by done.
      destruct (decide (j = k)) as [->|Hne].
      * rewrite decide_False by lia. rewrite decide_True by lia.
        by replace (k - k) with 0 by lia.
      * destruct (decide (k ≤ j)) as [Hkj|Hkj].
        -- rewrite decide_True by lia. by replace (j - k) with (S (j - S k)) by lia.
        -- by rewrite decide_False by lia.
    + destruct (decide (j = k)) as [->|Hne].
      * rewrite decide_False by lia. rewrite decide_True by lia.
        by replace (k - k) with 0 by lia.
      * destruct (decide (k ≤ j)) as [Hkj|Hkj].
        -- rewrite decide_True by lia. by replace (j - k) with (S (j - S k)) by lia.
        -- by rewrite decide_False by lia.
Qed.

(** A frame with a video: every mask with a state is handled on its own. *)
Lemma draw_canvas video states c j :
  videoRef c = Some video →
  aget (canvasRefs (draw states c)) j
  = match aget states j with
    | Some m => painted video (window c) m (aget (canvasRefs c) j)
    | None => aget (canvasRefs c) j
    end.
Proof.
  intros Hv. unfold draw, forEach. rewrite Hv. simpl.
  rewrite draw_loop_canvas, decide_True by lia. by rewrite Nat.sub_0_r.
Qed.

Lemma draw_coords video states c j :
  videoRef c = Some video →
  aget (coordsRefs (draw states c)) j
  = match aget states j with
    | Some m => labelled m (aget (canvasRefs c) j) (aget (coordsRefs c) j)
    | None => aget (coordsRefs c) j
    end.
Proof.
  intros Hv. unfold draw, forEach. rewrite Hv. simpl.
  rewrite draw_loop_coords, decide_True by (done || lia). by rewrite Nat.sub_0_r.
Qed.

Lemma draw_frames video states c :
  videoRef c = Some video →
  frames (draw states c) = frames c ++ [(nextHandle c, states)].
Proof.
  intros Hv. unfold draw, forEach. rewrite Hv. simpl.
  rewrite (forEachFrom_preserves frames), (forEachFrom_preserves nextHandle); [done| |];
    intros; apply drawMask_frames.
Qed.

End Render.

(** Without a video element a frame requests no further frame: the loop that
    frame belonged to ends. *)
Lemma frame_without_video_ends_loop {num : Type} `{!Arith num, !Builtins num}
    (c : Component num) (handle : nat) (states : list (option (MaskSlot num))) :
  videoRef c = None →
  frames c = [(handle, states)] →
  frames (step c animationFrame) = [] ∧ canvasRefs (step c animationFrame) = canvasRefs c.
Proof. intros Hv Hf. simpl. rewrite Hf. unfold draw. simpl. by rewrite Hv. Qed.

(** C9: in a frame of the render loop a missing resource makes [draw] skip
    the work that needs it, and nothing else.  Without a video element the
    frame does nothing at all, and so requests no further frame.  With one,
    every mask that has a state is handled on its own, whatever the other
    masks lack: without a canvas, or with a canvas that gives no 2D context,
    its canvas and its label stay as they are; with a context the canvas is
    cleared and painted, and the label is rewritten if there is one; the
    React state is untouched and the next frame is requested. *)
Theorem missing_resources_are_skipped {num : Type} `{!Arith num, !Builtins num}
    (states : list (option (MaskSlot num))) (c : Component num) :
  (videoRef c = None → draw states c = c)
  ∧ (∀ video, videoRef c = Some video →
       state (draw states c) = state c
       ∧ frames (draw states c) = frames c ++ [(nextHandle c, states)]
       ∧ ∀ j m, aget states j = Some m →
           (aget (canvasRefs c) j = None →
              aget (canvasRefs (draw states c)) j = None
              ∧ aget (coordsRefs (draw states c)) j = aget (coordsRefs c) j)
           ∧ (∀ cv, aget (canvasRefs c) j = Some cv → context2d cv = false →
                aget (canvasRefs (draw states c)) j = Some cv
                ∧ aget (coordsRefs (draw states c)) j = aget (coordsRefs c) j)
           ∧ (∀ cv, aget (canvasRefs c) j = Some cv → context2d cv = true →
                aget (canvasRefs (draw states c)) j = Some (paint video (window c) m cv)
                ∧ aget (coordsRefs (draw states c)) j
                  = set_textContent
                      (coordsText (Math_round (slot_x m)) (Math_round (slot_y m)))
                    <$> aget (coordsRefs c) j)).
Proof.
  split.
  - intros Hv. unfold draw. by rewrite Hv.
  - intros video Hv. split; [apply draw_state|].
    split; [by apply draw_frames with video|].
    intros j m Hm.
    rewrite (draw_canvas video), (draw_coords video), Hm by done.
    unfold painted, labelled. split; [|split].
    + by intros ->.
    + intros cv -> Hctx. simpl. by rewrite Hctx.
    + intros cv -> Hctx. simpl. by rewrite Hctx.
Qed.

(** On the degraded page one frame paints masks 0, 2, 4 and 5, leaves masks
    1 and 3 alone, skips the label of mask 4 only, and requests the next
    frame. *)
Lemma missing_resources_are_skipped_witness :
  let states := maskStates (state Page.degraded) in
  let drawn := draw states Page.degraded in
  draw states Page.noVideo = Page.noVideo
  ∧ frames drawn = [(1, states)]
  ∧ aget (canvasRefs drawn) 1 = None
  ∧ aget (canvasRefs drawn) 3 = Page.noContext
  ∧ aget (coordsRefs drawn) 3 = Page.div
  ∧ (ops <$> aget (canvasRefs drawn) 4)
    = Some [clearRect 0 0 300 150;
            drawClipped {| videoWidth := 1920; videoHeight := 1080 |}
              {| innerWidth := 1000; innerHeight := 500 |}
              {| x := 60; y := 140; w := 220; h := 60 |}]%Q
  ∧ aget (coordsRefs drawn) 4 = None
  ∧ (textContent <$> aget (coordsRefs drawn) 5) = Some "X: 300px Y: 100px".
Proof.
  intros states drawn. subst drawn.
  destruct (missing_resources_are_skipped states Page.noVideo) as [Hnone _].
  destruct (missing_resources_are_skipped states Page.degraded) as [_ Hsome].
  destruct (Hsome _ eq_refl) as (_ & Hframes & Hmask).
  split; [exact (Hnone eq_refl)|]. split; [exact Hframes|].
  destruct (Hmask 1 _ eq_refl) as ([H1 _] & _ & _); [reflexivity|].
  destruct (Hmask 3 _ eq_refl) as (_ & H3 & _).
  destruct (H3 _ eq_refl eq_refl) as [H3c H3l].
  destruct (Hmask 4 _ eq_refl) as (_ & _ & H4).
  destruct (H4 _ eq_refl eq_refl) as [H4c H4l].
  destruct (Hmask 5 _ eq_refl) as (_ & _ & H5).
  destruct (H5 _ eq_refl eq_refl) as [H5c H5l].
  split; [exact H1|]. split; [exact H3c|]. split; [exact H3l|].
  split; [rewrite H4c; vm_compute; reflexivity|].
  split; [exact H4l|].
  rewrite H5l. vm_compute. reflexivity.
Defined.

(** * The global HUD *)

Lemma coordsText_not_literal {num : Type} `{!Builtins num} (a b : num) :
  coordsText a b ≠ "GRAB" ∧ coordsText a b ≠ "HOVER".
Proof. split; discriminate. Qed.

(** Once React has run the effect again, the listener is the one of the
    current hover flag. *)
Lemma hoverEffect_in_step {num : Type} `{!Arith num, !Builtins num} (c : Component num) :
  listenerInStep (step c hoverEffect).
Proof.
  unfold listenerInStep. simpl.
  destruct (Bool.eqb _ _) eqn:E; [|done].
  symmetry. by apply Bool.eqb_prop.
Qed.

(** With the listener of the current hover flag, a document-wide
    pointer-move leaves the text alone while the flag is set and writes the
    coordinates while it is clear. *)
Lemma hud_label_in_step {num : Type} `{!Arith num, !Builtins num}
    (c : Component num) (e : MouseEvent num) :
  listenerInStep c →
  textContent <$> globalHudRef (step c (documentMousemove e))
  = (λ hud, if isHovering (state c) then textContent hud
            else coordsText (clientX e) (clientY e)) <$> globalHudRef c.
Proof.
  unfold listenerInStep. intros Hstep. simpl. unfold handleMouseMoveGlobal.
  rewrite Hstep. destruct (isHovering (state c)); simpl; by destruct (globalHudRef c).
Qed.

(** C7: entering a mask sets the HUD text to "GRAB" and leaving it sets the
    text to "HOVER", but the document-wide listener lags behind the hover
    flag: until React runs the effect keyed on [isHovering] again, the
    listener is the closure that saw the flag as it was.  So the pointer-move
    that follows the entry of a mask writes the coordinates over "GRAB" while
    the hover flag is set, and the pointer-move that follows the exit leaves
    "HOVER" standing, and writes no coordinates, while the flag is clear. *)
Theorem stale_listener_overwrites_hud {num : Type} `{!Arith num, !Builtins num}
    (c : Component num) (e : MouseEvent num) :
  listenerInStep c →
  (isHovering (state c) = false →
   let entered := step c mouseenter in
   let moved := step entered (documentMousemove e) in
   isHovering (state entered) = true
   ∧ textContent <$> globalHudRef entered = (λ _, "GRAB") <$> globalHudRef c
   ∧ isHovering (state moved) = true
   ∧ textContent <$> globalHudRef moved
     = (λ _, coordsText (clientX e) (clientY e)) <$> globalHudRef c)
  ∧ (isHovering (state c) = true →
     let left := step c mouseleave in
     let moved := step left (documentMousemove e) in
     isHovering (state left) = false
     ∧ textContent <$> globalHudRef left = (λ _, "HOVER") <$> globalHudRef c
     ∧ isHovering (state moved) = false
     ∧ textContent <$> globalHudRef moved = (λ _, "HOVER") <$> globalHudRef c).
Proof.
  unfold listenerInStep. intros Hstep. split; intros Hflag; simpl;
    unfold handleMouseMoveGlobal; simpl; rewrite Hstep, Hflag; simpl;
    by destruct (globalHudRef c).
Qed.

(** On the example page: the pointer enters mask 2 and moves on. *)
Lemma stale_listener_overwrites_hud_witness :
  let entered := step Page.started mouseenter in
  let moved := step entered (documentMousemove (Page.at_ 12 34)) in
  isHovering (state moved) = true
  ∧ (textContent <$> globalHudRef entered) = Some "GRAB"
  ∧ (textContent <$> globalHudRef moved) = Some "X: 12px Y: 34px".
Proof.
  intros entered moved.
  destruct (proj1 (stale_listener_overwrites_hud Page.started (Page.at_ 12 34) eq_refl)
              eq_refl) as (_ & Hgrab & Hflag & Htext).
  split; [exact Hflag|]. split; [exact Hgrab|exact Htext].
Defined.

(** * Initialisation, twice *)


Section Idempotence.
Context {num : Type} `{!Arith num, !Builtins num}.
Implicit Types (c : Component num) (mask : MaskEl num).




Lemma handlePlaying_mainOrigin (s : State num) c :
  mainOrigin (handlePlaying s c) = mainOrigin c.
Proof.
  unfold handlePlaying, draw.
  assert (Hi : mainOrigin (initCanvases (maskStates s) (initMasks c)) = mainOrigin c).
  { unfold initCanvases, forEach. rewrite (forEachFrom_preserves mainOrigin); [done|].
    intros. by case_match. }
  destruct (videoRef _); [|done]. simpl.
  unfold forEach. rewrite (forEachFrom_preserves mainOrigin); [done|].
  intros. unfold drawMask, updateCoords. by repeat case_match.
Qed.

End Idempotence.





(** * The geometry *)

(** C1: with a 1920x1080 video in a 1280x720 viewport, [drawClipped] maps the
    mask at (100,100) of size 200x100 to the source rectangle (150,150) of
    size 300x150: the video is placed at offset (0,0) with size 1280x720, and
    both scale factors are 1.5.  The numbers are IEEE 754 doubles. *)
Theorem drawClipped_1080p_in_720p :
  drawClipped Scenario.video Scenario.viewport Scenario.mask
    = (drawImage 150 150 300 150 0 0 200 100)%float
  ∧ placement Scenario.video Scenario.viewport
    = {| dw := 1280; dh := 720; dx := 0; dy := 0 |}%float
  ∧ scaleX Scenario.video Scenario.viewport = 1.5%float
  ∧ scaleY Scenario.video Scenario.viewport = 1.5%float.
Proof. repeat split; vm_compute; reflexivity. Qed.

(** On doubles the cover-fit equalities do not hold.  For the 1920x1080 video
    in a 1000x1000 viewport the exact source abscissa of the scenario mask is
    528, and so it is when the formulas of the wording are evaluated on
    doubles; [drawClipped] computes the double just below 528, from a
    placement whose width is not the one of the wording either. *)
Lemma drawClipped_rounds_on_doubles :
  drawClipped Scenario.video Scenario.square Scenario.mask
    = (drawImage 0x1.07fffffffffffp+9 108 216 108 0 0 200 100)%float
  ∧ coverSource Scenario.video Scenario.square Scenario.mask
    = (drawImage 528 108 216 108 0 0 200 100)%float
  ∧ drawClipped Scenario.video Scenario.square Scenario.mask
    ≠ coverSource Scenario.video Scenario.square Scenario.mask
  ∧ dw (placement Scenario.video Scenario.square)
    ≠ dw (coverBox Scenario.video Scenario.square).
Proof.
  split; [by vm_compute|]. split; [by vm_compute|]. split.
  - intros Heq.
    apply (f_equal (λ op, match op with
                          | drawImage sx _ _ _ _ _ _ _ => PrimFloat.eqb sx 528
                          | clearRect _ _ _ _ => false
                          end)) in Heq.
    vm_compute in Heq. discriminate.
  - intros Heq.
    apply (f_equal (λ v, PrimFloat.eqb v (dw (coverBox Scenario.video Scenario.square))))
      in Heq.
    vm_compute in Heq. discriminate.
Qed.

Section CoverFit.
Local Open Scope Q_scope.

Lemma Qdiv_lt_cross (a b c d : Q) : 0 < b → 0 < d → a / b < c / d → a * d < c * b.
Proof.
  intros Hb Hd Hlt.
  assert (Ha : a * d == (a / b) * (b * d)) by (field; lra).
  assert (Hc : c * b == (c / d) * (b * d)) by (field; lra).
  rewrite Ha, Hc. apply Qmult_lt_compat_r; [|done].
  apply Qmult_lt_0_compat; done.
Qed.

Lemma Qdiv_le_cross (a b c d : Q) : 0 < b → 0 < d → a / b <= c / d → a * d <= c * b.
Proof.
  intros Hb Hd Hle.
  assert (Ha : a * d == (a / b) * (b * d)) by (field; lra).
  assert (Hc : c * b == (c / d) * (b * d)) by (field; lra).
  rewrite Ha, Hc. apply Qmult_le_compat_r; [done|].
  apply Qlt_le_weak, Qmult_lt_0_compat; done.
Qed.

Lemma Qdiv_le_uncross (a b c d : Q) : 0 < b → 0 < d → a * d <= c * b → a / b <= c / d.
Proof.
  intros Hb Hd Hle.
  apply Qle_shift_div_r; [done|].
  assert (E : c / d * b == (c * b) / d) by (field; lra).
  rewrite E. apply Qle_shift_div_l; done.
Qed.

Variables (video : Video Q) (win : Window Q).
Hypothesis video_w : 0 < videoWidth video.
Hypothesis video_h : 0 < videoHeight video.
Hypothesis win_w : 0 < innerWidth win.
Hypothesis win_h : 0 < innerHeight win.

(** When the video is the wider of the two, the height decides the scale. *)
Lemma scale_wide :
  innerWidth win / innerHeight win < videoWidth video / videoHeight video →
  Cover.scale video win == innerHeight win / videoHeight video.
Proof using video_w video_h win_w win_h.
  intros Hlt. unfold Cover.scale. apply Q.max_r.
  apply Qdiv_le_uncross; [done..|].
  apply Qdiv_lt_cross in Hlt; [|done..]. lra.
Qed.

(** Otherwise the width does. *)
Lemma scale_tall :
  videoWidth video / videoHeight video <= innerWidth win / innerHeight win →
  Cover.scale video win == innerWidth win / videoWidth video.
Proof using video_w video_h win_w win_h.
  intros Hle. unfold Cover.scale. apply Q.max_l.
  apply Qdiv_le_uncross; [done..|].
  apply Qdiv_le_cross in Hle; [|done..]. lra.
Qed.

(** [placement] is the cover placement. *)
Lemma placement_cover : Cover.eqPlacement (placement video win) (Cover.box video win).
Proof using video_w video_h win_w win_h.
  unfold Cover.eqPlacement, placement, Cover.box. simpl.
  destruct (Qle_bool _ _) eqn:Hcmp; simpl.
  - apply Qle_bool_iff in Hcmp. rewrite (scale_tall Hcmp).
    split; [field; lra|]. split; [field; lra|]. split; field; lra.
  - assert (Hlt : innerWidth win / innerHeight win < videoWidth video / videoHeight video).
    { apply Qnot_le_lt. intros Hle. apply Qle_bool_iff in Hle. congruence. }
    rewrite (scale_wide Hlt).
    split; [field; lra|]. split; [field; lra|]. split; field; lra.
Qed.

Lemma scale_pos : 0 < Cover.scale video win.
Proof using video_w video_h win_w win_h.
  unfold Cover.scale. apply Q.max_lt_iff. left.
  apply Qlt_shift_div_l; [done|]. lra.
Qed.

End CoverFit.

(** C2: for a video and a viewport of positive sizes, [drawClipped] computes
    the [object-fit: cover] mapping.  The placement [(dx, dy, dw, dh)] it
    uses is the video scaled by [max (W / videoW) (H / videoH)] and centred,
    which covers the viewport; and the source rectangle it draws is the
    image of the target rectangle under the inverse of that placement:
    [sx = (x - dx) * videoW / dw], [sy = (y - dy) * videoH / dh],
    [sw = w * videoW / dw] and [sh = h * videoH / dh], so that scaling the
    source rectangle and moving it by [(dx, dy)] gives the target back.
    Numbers are exact rationals. *)
Theorem drawClipped_is_cover_fit (video : Video Q) (win : Window Q) (rect : MaskState Q) :
  (0 < videoWidth video)%Q → (0 < videoHeight video)%Q →
  (0 < innerWidth win)%Q → (0 < innerHeight win)%Q →
  let p := Cover.box video win in
  let s := Cover.scale video win in
  Cover.eqPlacement (placement video win) p
  ∧ (innerWidth win <= dw p ∧ innerHeight win <= dh p)%Q
  ∧ (dw p == innerWidth win ∨ dh p == innerHeight win)%Q
  ∧ (dx p + dw p / 2 == innerWidth win / 2 ∧ dy p + dh p / 2 == innerHeight win / 2)%Q
  ∧ ∃ sx sy sw sh,
      drawClipped video win rect = drawImage sx sy sw sh 0%Q 0%Q (w rect) (h rect)
      ∧ (sx == (x rect - dx p) * videoWidth video / dw p)%Q
      ∧ (sy == (y rect - dy p) * videoHeight video / dh p)%Q
      ∧ (sw == w rect * videoWidth video / dw p)%Q
      ∧ (sh == h rect * videoHeight video / dh p)%Q
      ∧ ((Cover.toViewport video win (sx, sy)).1 == x rect)%Q
      ∧ ((Cover.toViewport video win (sx, sy)).2 == y rect)%Q
      ∧ (sw * s == w rect ∧ sh * s == h rect)%Q.
Proof.
  intros Hvw Hvh Hw Hh p s.
  pose proof (placement_cover video win Hvw Hvh Hw Hh) as (Hdw & Hdh & Hdx & Hdy).
  pose proof (scale_pos video win Hvw Hvh Hw Hh) as Hs.
  fold p in Hdw, Hdh, Hdx, Hdy. fold s in Hs.
  assert (Hpw : (dw p == s * videoWidth video)%Q) by done.
  assert (Hph : (dh p == s * videoHeight video)%Q) by done.
  assert (Hpx : (dx p == (innerWidth win - s * videoWidth video) / 2)%Q) by done.
  assert (Hpy : (dy p == (innerHeight win - s * videoHeight video) / 2)%Q) by done.
  split; [done|].
  split.
  { rewrite Hpw, Hph. split.
    - assert (E : (innerWidth win == innerWidth win / videoWidth video * videoWidth video)%Q)
        by (field; lra).
      rewrite E at 1. apply Qmult_le_compat_r; [apply Q.le_max_l|lra].
    - assert (E : (innerHeight win == innerHeight win / videoHeight video * videoHeight video)%Q)
        by (field; lra).
      rewrite E at 1. apply Qmult_le_compat_r; [apply Q.le_max_r|lra]. }
  split.
  { rewrite Hpw, Hph. subst s. unfold Cover.scale.
    destruct (Q.max_dec (innerWidth win / videoWidth video)
                (innerHeight win / videoHeight video)) as [E|E]; rewrite E.
    - left. field. lra.
    - right. field. lra. }
  split.
  { rewrite Hpx, Hpy, Hpw, Hph. split; field. }
  unfold drawClipped, scaleX, scaleY.
  do 4 eexists. split; [reflexivity|].
  unfold Cover.toViewport. simpl fst. simpl snd. fold p. fold s.
  rewrite Hdw, Hdh, Hdx, Hdy, Hpx, Hpy, Hpw, Hph.
  cbn [nsub nmul ndiv nadd Q_arith].
  split; [field; lra|]. split; [field; lra|]. split; [field; lra|].
  split; [field; lra|]. split; [field; lra|]. split; [field; lra|].
  split; field; lra.
Qed.

(** The video of the scenario in a 1000x1000 viewport: the scale is 1000/1080
    and the video overflows on the left and on the right. *)
Lemma drawClipped_is_cover_fit_witness :
  Cover.eqPlacement
    (placement {| videoWidth := 1920%Q; videoHeight := 1080%Q |}
               {| innerWidth := 1000%Q; innerHeight := 1000%Q |})
    (Cover.box {| videoWidth := 1920%Q; videoHeight := 1080%Q |}
               {| innerWidth := 1000%Q; innerHeight := 1000%Q |}).
Proof.
  exact (proj1 (drawClipped_is_cover_fit
                  {| videoWidth := 1920%Q; videoHeight := 1080%Q |}
                  {| innerWidth := 1000%Q; innerHeight := 1000%Q |}
                  {| x := 100%Q; y := 100%Q; w := 200%Q; h := 100%Q |}
                  eq_refl eq_refl eq_refl eq_refl)).
Defined.

(** * Model and presentation *)

Section Presentation.
Context {num : Type} `{!Arith num, !Builtins num}.
Implicit Types (c : Component num) (s : State num) (e : MouseEvent num).
Implicit Types (i j idx : nat) (ev : Event num).

Lemma draw_mainOrigin (states : list (option (MaskSlot num))) c :
  mainOrigin (draw states c) = mainOrigin c.
Proof.
  unfold draw. destruct (videoRef c); [|done]. simpl.
  unfold forEach. rewrite (forEachFrom_preserves mainOrigin); [done|].
  intros. unfold drawMask, updateCoords. by repeat case_match.
Qed.

Lemma step_mainOrigin c ev : mainOrigin (step c ev) = mainOrigin c.
Proof.
  destruct ev as [idx e|idx e| | | |e| | |]; simpl.
  - unfold handleMouseDown. by repeat case_match.
  - unfold handleMouseMove. by repeat case_match.
  - unfold handleMouseUp. by repeat case_match.
  - done.
  - done.
  - unfold handleMouseMoveGlobal. by case_match.
  - destruct (videoRef c); [|done]. apply handlePlaying_mainOrigin.
  - destruct (frames c) as [|[hd states] rest]; [done|]. by rewrite draw_mainOrigin.
  - by destruct (Bool.eqb _ _).
Qed.

Lemma run_mainOrigin evs c : mainOrigin (run c evs) = mainOrigin c.
Proof.
  revert c. induction evs as [|ev evs IH]; intros c; [done|].
  unfold run in *. simpl. by rewrite IH, step_mainOrigin.
Qed.

Lemma step_presentationTracksState c ev :
  dragTargetLive c → presentationTracksState c → presentationTracksState (step c ev).
Proof.
  intros Hlive Hinv. destruct ev as [idx e|idx e| | | |e| | |]; simpl.
  - unfold handleMouseDown.
    destruct (aget (maskRefs c) idx) as [mask|] eqn:Hmask; [|done].
    destruct (aget (maskStates (state c)) idx) as [m0|] eqn:Hm0; [|done].
    intros i s Hs. simpl in Hs.
    destruct (Hinv i s Hs) as (m & el & -> & Hel & Hrest).
    destruct (decide (idx = i)) as [->|Hne].
    + exists m, (set_styleCursor "grabbing" mask). split; [done|]. simpl.
      rewrite aget_insert_eq by (apply aget_lt_length; by rewrite Hmask).
      split; [done|]. by replace mask with el by congruence.
    + exists m, el. split; [done|]. simpl. by rewrite aget_insert_ne.
  - destruct (decide (index (draggingState (state c)) = Some idx)) as [Hidx|Hidx];
      [|by rewrite handleMouseMove_inactive].
    destruct (Hlive idx Hidx) as [_ [s0 Hs0]].
    destruct (Hinv idx s0 Hs0) as (m0 & el0 & -> & Hel0 & Hl0 & Ht0 & _).
    intros i s Hs. rewrite handleMouseMove_state in Hs by done. simpl in Hs.
    unfold handleMouseMove. rewrite decide_True by done. simpl. rewrite Hel0. simpl.
    destruct (decide (idx = i)) as [->|Hne].
    + rewrite aget_aset_eq, Hs0 in Hs. simpl in Hs. injection Hs as <-.
      eexists _, _. split; [done|].
      rewrite aget_insert_eq by (apply aget_lt_length; by rewrite Hel0).
      by rewrite Hs0.
    + rewrite aget_aset_ne in Hs by done.
      destruct (Hinv i s Hs) as (m & el & -> & Hel & Hrest).
      exists m, el. split; [done|]. by rewrite aget_insert_ne.
  - unfold handleMouseUp.
    destruct (index (draggingState (state c))) as [i0|] eqn:Hi0; [|done].
    intros i s Hs.
    assert (Hs' : aget (maskStates (state c)) i = Some s).
    { by destruct (aget (maskRefs c) i0) in Hs. }
    destruct (Hinv i s Hs') as (m & el & -> & Hel & Hrest).
    destruct (aget (maskRefs c) i0) as [mask0|] eqn:Hmask0; simpl;
      [|by exists m, el].
    destruct (decide (i0 = i)) as [->|Hne].
    + exists m, (set_styleCursor "grab" mask0). split; [done|].
      rewrite aget_insert_eq by (apply aget_lt_length; by rewrite Hmask0).
      split; [done|]. by replace mask0 with el by congruence.
    + exists m, el. split; [done|]. by rewrite aget_insert_ne.
  - done.
  - done.
  - unfold handleMouseMoveGlobal. by destruct (negb _).
  - destruct (videoRef c) as [video|]; [|done].
    intros i s. rewrite handlePlaying_state, handlePlaying_maskRefs.
    rewrite initMasks_maskStates, initMasks_maskRefs, aget_fmap.
    destruct (aget (maskRefs c) i) as [mask|]; simpl; [|done].
    intros [= <-]. by eexists _, _.
  - destruct (frames c) as [|[hd states] rest]; [done|].
    intros i s. rewrite draw_state, draw_maskRefs. apply Hinv.
  - by destruct (Bool.eqb _ _).
Qed.

Lemma reachable_presentationTracksState c :
  reachable c → dragTargetLive c ∧ presentationTracksState c.
Proof.
  apply (reachable_ind (λ c, dragTargetLive c ∧ presentationTracksState c)).
  - intros c0 [Hs _]. split; intros i; rewrite Hs; [done|].
    intros s Hs0. by destruct i.
  - intros c0 ev [Hlive Hinv]. split.
    + by apply step_dragTargetLive.
    + by apply step_presentationTracksState.
Qed.

End Presentation.

Lemma rectangle_of_anchored {num : Type} `{!Arith num}
    (mask : MaskEl num) (a b : num) :
  (nzero + nzero)%num = nzero →
  (nzero + a)%num = a → (nzero + b)%num = b →
  styleLeft mask = Some nzero → styleTop mask = Some nzero →
  styleTransform mask = Some (a, b) →
  getBoundingClientRect (nzero, nzero) mask
  = {| rleft := a; rtop := b; rwidth := cssWidth mask; rheight := cssHeight mask |}.
Proof.
  intros H0 Ha Hb Hl Ht Htr. unfold getBoundingClientRect. rewrite Hl, Ht, Htr. simpl.
  by rewrite H0, Ha, Hb.
Qed.

(** X1: In every reachable component the element of a mask that has a state is
    anchored at [left: 0; top: 0] and translated by exactly the position the
    state records: the presentation does not drift from the model. *)
Theorem transform_tracks_state {num : Type} `{!Arith num, !Builtins num}
    (c : Component num) (i : nat) (s : MaskSlot num) :
  reachable c →
  aget (maskStates (state c)) i = Some s →
  ∃ mask, aget (maskRefs c) i = Some mask
    ∧ styleLeft mask = Some nzero
    ∧ styleTop mask = Some nzero
    ∧ styleTransform mask = Some (slot_x s, slot_y s).
Proof.
  intros Hreach Hs.
  destruct (reachable_presentationTracksState c Hreach) as [_ Hinv].
  destruct (Hinv i s Hs) as (m & mask & -> & Hmask & Hl & Ht & Htr).
  by exists mask.
Qed.

Lemma transform_tracks_state_witness :
  let c := run Page.mount [playing; mousedown 2 (Page.at_ 610 80);
                           mousemove 2 (Page.at_ 500 90); mouseup] in
  ∃ mask, aget (maskRefs c) 2 = Some mask
    ∧ styleLeft mask = Some 0%Q
    ∧ styleTop mask = Some 0%Q
    ∧ styleTransform mask = Some (490%Q, 85%Q).
Proof.
  intros c.
  assert (Hreach : reachable c).
  { exists Page.mount, [playing; mousedown 2 (Page.at_ 610 80);
                        mousemove 2 (Page.at_ 500 90); mouseup].
    by repeat split. }
  exact (transform_tracks_state c 2
           (full {| x := 490%Q; y := 85%Q; w := 350%Q; h := 100%Q |}) Hreach eq_refl).
Defined.

(** X2: In every reachable component every mask state has its four fields: the
    spread in [handleMouseMove] always finds the state it copies, so no
    state ever lacks [w] and [h]. *)
Theorem mask_states_are_complete {num : Type} `{!Arith num, !Builtins num}
    (c : Component num) (i : nat) (s : MaskSlot num) :
  reachable c →
  aget (maskStates (state c)) i = Some s →
  ∃ m, s = full m ∧ slot_w s = Some (w m) ∧ slot_h s = Some (h m).
Proof.
  intros Hreach Hs.
  destruct (reachable_presentationTracksState c Hreach) as [_ Hinv].
  destruct (Hinv i s Hs) as (m & mask & -> & _). by exists m.
Qed.

Lemma mask_states_are_complete_witness :
  let c := run Page.mount [playing; mousedown 2 (Page.at_ 610 80);
                           mousemove 2 (Page.at_ 500 90)] in
  ∃ m, full {| x := 490%Q; y := 85%Q; w := 350%Q; h := 100%Q |} = full m
       ∧ Some 350%Q = Some (w m) ∧ Some 100%Q = Some (h m).
Proof.
  intros c.
  assert (Hreach : reachable c).
  { exists Page.mount, [playing; mousedown 2 (Page.at_ 610 80);
                        mousemove 2 (Page.at_ 500 90)].
    by repeat split. }
  exact (mask_states_are_complete c 2
           (full {| x := 490%Q; y := 85%Q; w := 350%Q; h := 100%Q |}) Hreach eq_refl).
Defined.

(** X3: With the containing block at the viewport origin, the position of
    every mask state of a reachable component is the top-left corner of the
    bounding rectangle its element has at that moment, provided the two
    coordinates are numbers that adding zero leaves as they are (in exact
    arithmetic every number is, on doubles every number but [-0]).  The
    width and height of that rectangle are those of the element; the state
    records them at a [playing] event only. *)
Theorem state_position_is_rectangle_corner {num : Type} `{!Arith num, !Builtins num}
    (c : Component num) (i : nat) (s : MaskSlot num) :
  mainOrigin c = (nzero, nzero) →
  (nzero + nzero)%num = nzero →
  (nzero + slot_x s)%num = slot_x s →
  (nzero + slot_y s)%num = slot_y s →
  reachable c →
  aget (maskStates (state c)) i = Some s →
  ∃ mask, aget (maskRefs c) i = Some mask
    ∧ getBoundingClientRect (mainOrigin c) mask
      = {| rleft := slot_x s; rtop := slot_y s;
           rwidth := cssWidth mask; rheight := cssHeight mask |}.
Proof.
  intros Horigin H0 Hx Hy Hreach Hs.
  destruct (reachable_presentationTracksState c Hreach) as [_ Hinv].
  destruct (Hinv i s Hs) as (m & mask & -> & Hmask & Hl & Ht & Htr).
  exists mask. split; [done|]. rewrite Horigin.
  by apply rectangle_of_anchored.
Qed.

Lemma state_position_is_rectangle_corner_witness :
  let c := run Page.mount [playing; mousedown 2 (Page.at_ 610 80);
                           mousemove 2 (Page.at_ 500 90)] in
  ∃ mask, aget (maskRefs c) 2 = Some mask
    ∧ getBoundingClientRect (0%Q, 0%Q) mask
      = {| rleft := 490%Q; rtop := 85%Q;
           rwidth := cssWidth mask; rheight := cssHeight mask |}.
Proof.
  intros c.
  assert (Hreach : reachable c).
  { exists Page.mount, [playing; mousedown 2 (Page.at_ 610 80);
                        mousemove 2 (Page.at_ 500 90)].
    by repeat split. }
  exact (state_position_is_rectangle_corner c 2
           (full {| x := 490%Q; y := 85%Q; w := 350%Q; h := 100%Q |})
           eq_refl eq_refl eq_refl eq_refl Hreach eq_refl).
Defined.

(** X4: With the containing block at the viewport origin, a [playing] event
    on a reachable component keeps the position of every mask state,
    wherever the drags have left the mask, provided the two coordinates are
    numbers that adding zero leaves as they are; and it records as width and
    height those the element has at that moment. *)
Theorem playing_keeps_positions {num : Type} `{!Arith num, !Builtins num}
    (c : Component num) (video : Video num) (i : nat) (s : MaskSlot num) :
  mainOrigin c = (nzero, nzero) →
  (nzero + nzero)%num = nzero →
  (nzero + slot_x s)%num = slot_x s →
  (nzero + slot_y s)%num = slot_y s →
  reachable c →
  videoRef c = Some video →
  aget (maskStates (state c)) i = Some s →
  ∃ mask, aget (maskRefs c) i = Some mask
    ∧ aget (maskStates (state (step c playing))) i
      = Some (full {| x := slot_x s; y := slot_y s;
                      w := cssWidth mask; h := cssHeight mask |}).
Proof.
  intros Horigin H0 Hx Hy Hreach Hv Hs. simpl. rewrite Hv.
  destruct (reachable_presentationTracksState c Hreach) as [_ Hinv].
  destruct (Hinv i s Hs) as (m & mask & -> & Hmask & Hl & Ht & Htr).
  exists mask. split; [done|].
  rewrite handlePlaying_state, initMasks_maskStates, Hmask, Horigin. simpl.
  unfold measure.
  by rewrite (rectangle_of_anchored mask (x m) (y m) H0 Hx Hy Hl Ht Htr).
Qed.

Lemma playing_keeps_positions_witness :
  let c := run Page.mount [playing; mousedown 2 (Page.at_ 610 80);
                           mousemove 2 (Page.at_ 500 90)] in
  ∃ mask, aget (maskRefs c) 2 = Some mask
    ∧ aget (maskStates (state (step c playing))) 2
      = Some (full {| x := 490%Q; y := 85%Q; w := cssWidth mask; h := cssHeight mask |}).
Proof.
  intros c.
  assert (Hreach : reachable c).
  { exists Page.mount, [playing; mousedown 2 (Page.at_ 610 80);
                        mousemove 2 (Page.at_ 500 90)].
    by repeat split. }
  exact (playing_keeps_positions c _ 2
           (full {| x := 490%Q; y := 85%Q; w := 350%Q; h := 100%Q |})
           eq_refl eq_refl eq_refl eq_refl Hreach eq_refl eq_refl).
Defined.

(** X5: A [playing] event records, for every index, the bounding rectangle of
    the mask element at that index, and nothing where the element is
    missing; whatever [maskStates] held before is discarded. *)
Theorem playing_measures_every_mask {num : Type} `{!Arith num, !Builtins num}
    (c : Component num) (video : Video num) (j : nat) :
  videoRef c = Some video →
  aget (maskStates (state (step c playing))) j
  = (λ mask,
       let r := getBoundingClientRect (mainOrigin c) mask in
       full {| x := rleft r; y := rtop r; w := rwidth r; h := rheight r |})
    <$> aget (maskRefs c) j.
Proof.
  intros Hv. simpl. rewrite Hv.
  by rewrite handlePlaying_state, initMasks_maskStates.
Qed.

Lemma playing_measures_every_mask_witness :
  aget (maskStates (state (step Page.mount playing))) 5
  = Some (full {| x := 300%Q; y := 100%Q; w := 600%Q; h := 175%Q |})
  ∧ aget (maskStates (state (step Page.mount playing))) 6 = None.
Proof.
  split.
  - exact (playing_measures_every_mask Page.mount _ 5 eq_refl).
  - exact (playing_measures_every_mask Page.mount _ 6 eq_refl).
Defined.

(** * More on dragging *)

(** X6: A press on a mask followed at once by a release moves nothing: the mask
    states are as before and no drag is active.  Of the mask elements only
    the pressed one changes, and only in its inline cursor, which ends as
    [grab]; this holds whatever drag was active before the press, so the
    release restores the cursor of the mask pressed last and of no other. *)
Theorem press_release_moves_nothing {num : Type} `{!Arith num, !Builtins num}
    (c : Component num) (i : nat) (p : MouseEvent num)
    (mask : MaskEl num) (m : MaskSlot num) :
  aget (maskRefs c) i = Some mask →
  aget (maskStates (state c)) i = Some m →
  let after := step (step c (mousedown i p)) mouseup in
  maskStates (state after) = maskStates (state c)
  ∧ draggingState (state after) = {| index := None; offsetX := nzero; offsetY := nzero |}
  ∧ aget (maskRefs after) i = Some (set_styleCursor "grab" mask)
  ∧ ∀ j, j ≠ i → aget (maskRefs after) j = aget (maskRefs c) j.
Proof.
  intros Hmask Hm after. subst after. simpl.
  unfold handleMouseDown. rewrite Hmask, Hm.
  unfold handleMouseUp. simpl.
  assert (Hlt : i < length (maskRefs c)) by (apply aget_lt_length; by rewrite Hmask).
  rewrite aget_insert_eq by done. simpl.
  split; [done|]. split; [done|]. split.
  - rewrite aget_insert_eq by (by rewrite length_insert). done.
  - intros j Hne. by rewrite !aget_insert_ne.
Qed.

Lemma press_release_moves_nothing_witness :
  let after := step (step Page.started (mousedown 2 (Page.at_ 610 80))) mouseup in
  maskStates (state after) = maskStates (state Page.started)
  ∧ (styleCursor <$> aget (maskRefs after) 2) = Some (Some "grab")
  ∧ aget (maskRefs after) 4 = aget (maskRefs Page.started) 4.
Proof.
  intros after.
  destruct (press_release_moves_nothing Page.started 2 (Page.at_ 610 80) _ _ eq_refl eq_refl)
    as (Hstates & _ & Hpressed & Hothers).
  split; [exact Hstates|]. split.
  - subst after. by rewrite Hpressed.
  - apply Hothers. lia.
Defined.

(** X7: In exact arithmetic a drag moves the mask by the displacement of the
    pointer: after a press at [p], whatever happens in between short of
    another press or a release, a move to [q] puts the mask at its position
    at the press plus [q - p]. *)
Theorem drag_moves_by_pointer_delta (c : Component Q) (i : nat) (p q : MouseEvent Q)
    (mask : MaskEl Q) (m : MaskSlot Q) (evs : list (Event Q)) :
  aget (maskRefs c) i = Some mask →
  aget (maskStates (state c)) i = Some m →
  forallb keepsDrag evs = true →
  ∃ m', aget (maskStates (state (step (run (step c (mousedown i p)) evs) (mousemove i q)))) i
        = Some m'
    ∧ (slot_x m' == slot_x m + (clientX q - clientX p))%Q
    ∧ (slot_y m' == slot_y m + (clientY q - clientY p))%Q.
Proof.
  intros Hmask Hm Hevs.
  assert (Hd : draggingState (state (step c (mousedown i p)))
               = {| index := Some i;
                    offsetX := (clientX p - slot_x m)%num;
                    offsetY := (clientY p - slot_y m)%num |}).
  { simpl. unfold handleMouseDown. by rewrite Hmask, Hm. }
  remember (step c (mousedown i p)) as pressed eqn:Hpressed.
  pose proof (run_keepsDrag evs pressed Hevs) as Hkeep.
  rewrite Hd in Hkeep.
  change (step (run pressed evs) (mousemove i q))
    with (handleMouseMove (state (run pressed evs)) q i (run pressed evs)).
  rewrite handleMouseMove_state by (by rewrite Hkeep).
  simpl. rewrite aget_aset_eq, Hkeep. simpl.
  eexists. split; [done|].
  rewrite slot_x_spread, slot_y_spread. cbn [nsub Q_arith]. split; ring.
Qed.

Lemma drag_moves_by_pointer_delta_witness :
  ∃ m', aget (maskStates (state
            (step (run (step Page.started (mousedown 2 (Page.at_ 610 80)))
                       [mousemove 2 (Page.at_ 700 300); mouseleave; animationFrame])
                  (mousemove 2 (Page.at_ 500 90))))) 2 = Some m'
    ∧ (slot_x m' == 600 + (500 - 610))%Q
    ∧ (slot_y m' == 75 + (90 - 80))%Q.
Proof.
  exact (drag_moves_by_pointer_delta Page.started 2 (Page.at_ 610 80) (Page.at_ 500 90) _
           (full {| x := 600%Q; y := 75%Q; w := 350%Q; h := 100%Q |})
           [mousemove 2 (Page.at_ 700 300); mouseleave; animationFrame]
           eq_refl eq_refl eq_refl).
Defined.

(** * More on the render loop *)

Section RenderLoop.
Context {num : Type} `{!Arith num, !Builtins num}.
Implicit Types (c : Component num) (video : Video num) (m : MaskSlot num).
Implicit Types (states l : list (option (MaskSlot num))) (j k idx : nat).
Implicit Types (ev : Event num).

(** A loop commutes with a change of the state that its body commutes
    with. *)
Lemma forEachFrom_commute {A St} (g : St → St) (f : A → nat → St → St) :
  (∀ a i s, f a i (g s) = g (f a i s)) →
  ∀ (l : list (option A)) i s, forEachFrom f i l (g s) = g (forEachFrom f i l s).
Proof.
  intros Hf l. induction l as [|o l IH]; intros i s; simpl; [done|].
  destruct o; [|done]. by rewrite Hf, IH.
Qed.

Lemma drawMask_with_state video states m idx c (f : State num → State num) :
  drawMask video states m idx (with_state f c)
  = with_state f (drawMask video states m idx c).
Proof.
  unfold drawMask, updateCoords. simpl.
  destruct (aget (canvasRefs c) idx) as [cv|]; [|done].
  destruct (context2d cv); [|done]. simpl.
  destruct (aget (coordsRefs c) idx); [|done].
  by destruct (aget states idx).
Qed.

Lemma draw_with_state states c (f : State num → State num) :
  draw states (with_state f c) = with_state f (draw states c).
Proof.
  unfold draw. simpl. destruct (videoRef c) as [video|]; [|done].
  unfold forEach.
  rewrite (forEachFrom_commute (with_state f) (drawMask video states)); [done|].
  intros. apply drawMask_with_state.
Qed.

(** What a step does to the canvases and labels when no requested frame saw
    a mask state. *)
Lemma step_framesSawNothing c ev :
  interaction ev = true →
  framesSawNothing c →
  canvasRefs (step c ev) = canvasRefs c
  ∧ coordsRefs (step c ev) = coordsRefs c
  ∧ framesSawNothing (step c ev).
Proof.
  intros Hev Hinv. destruct ev as [idx e|idx e| | | |e| | |]; simpl; try done.
  - unfold handleMouseDown. by repeat case_match.
  - unfold handleMouseMove. by repeat case_match.
  - unfold handleMouseUp. by repeat case_match.
  - unfold handleMouseMoveGlobal. by case_match.
  - unfold framesSawNothing in *.
    destruct (frames c) as [|[hd states] rest] eqn:Hf; [by rewrite Hf|].
    apply Forall_cons in Hinv as [Hhd Hrest]. simpl in Hhd. subst states.
    unfold draw. simpl. destruct (videoRef c); simpl; [|done].
    split; [done|]. split; [done|].
    apply Forall_app. split; [done|]. by apply Forall_singleton.
  - by destruct (Bool.eqb _ _).
Qed.

Lemma run_framesSawNothing evs c :
  forallb interaction evs = true →
  framesSawNothing c →
  canvasRefs (run c evs) = canvasRefs c ∧ coordsRefs (run c evs) = coordsRefs c.
Proof.
  revert c. induction evs as [|ev evs IH]; intros c Hall Hinv; [done|].
  simpl in Hall. apply andb_prop in Hall as [Hev Hall].
  destruct (step_framesSawNothing c ev Hev Hinv) as (Hc & Hl & Hinv').
  unfold run in *. simpl. destruct (IH (step c ev) Hall Hinv') as [IHc IHl].
  split; congruence.
Qed.




End RenderLoop.

(** X8: The first [playing] event after the mount paints nothing, and nothing is
    painted afterwards until the next [playing] event: [initCanvases] and
    [draw] are the closures of the first render, which saw no mask state, and
    the frame that [draw] requests is that same closure.  Whatever is clicked,
    dragged or rendered in between, every canvas and every coordinate label
    stays as it was mounted. *)
Theorem first_playing_paints_nothing {num : Type} `{!Arith num, !Builtins num}
    (c : Component num) (evs : list (Event num)) :
  mounted c →
  forallb interaction evs = true →
  canvasRefs (run (step c playing) evs) = canvasRefs c
  ∧ coordsRefs (run (step c playing) evs) = coordsRefs c.
Proof.
  intros [Hstate Hframes] Hevs.
  assert (Hfirst : canvasRefs (step c playing) = canvasRefs c
                   ∧ coordsRefs (step c playing) = coordsRefs c
                   ∧ framesSawNothing (step c playing)).
  { unfold framesSawNothing. simpl. destruct (videoRef c) as [video|] eqn:Hv.
    - unfold handlePlaying, initCanvases, draw. rewrite Hstate. simpl.
      rewrite Hv. simpl. rewrite Hframes. split; [done|]. split; [done|].
      by apply Forall_singleton.
    - by rewrite Hframes. }
  destruct Hfirst as (Hc & Hl & Hinv).
  destruct (run_framesSawNothing evs (step c playing) Hevs Hinv) as [Hc' Hl'].
  split; congruence.
Qed.

Lemma first_playing_paints_nothing_witness :
  let c := run (step Page.mount playing)
             [animationFrame; mousedown 2 (Page.at_ 610 80);
              mousemove 2 (Page.at_ 500 90); animationFrame; mouseup; animationFrame] in
  canvasRefs c = replicate 6 Page.canvas ∧ coordsRefs c = replicate 6 Page.div.
Proof.
  exact (first_playing_paints_nothing Page.mount
           [animationFrame; mousedown 2 (Page.at_ 610 80);
            mousemove 2 (Page.at_ 500 90); animationFrame; mouseup; animationFrame]
           (conj eq_refl eq_refl) eq_refl).
Defined.



Lemma drawMask_with_masks {num : Type} `{!Arith num, !Builtins num}
    (video : Video num) (states : list (option (MaskSlot num))) (m : MaskSlot num)
    (idx : nat) (c : Component num) (masks : list (option (MaskEl num))) :
  drawMask video states m idx (with_masks masks c)
  = with_masks masks (drawMask video states m idx c).
Proof.
  unfold drawMask, updateCoords. simpl.
  destruct (aget (canvasRefs c) idx) as [cv|]; [|done].
  destruct (context2d cv); [|done]. simpl.
  destruct (aget (coordsRefs c) idx); [|done].
  by destruct (aget states idx).
Qed.

Lemma draw_with_masks {num : Type} `{!Arith num, !Builtins num}
    (states : list (option (MaskSlot num))) (c : Component num)
    (masks : list (option (MaskEl num))) :
  draw states (with_masks masks c) = with_masks masks (draw states c).
Proof.
  unfold draw. simpl. destruct (videoRef c) as [video|]; [|done].
  unfold forEach.
  rewrite (forEachFrom_commute (with_masks masks) (drawMask video states)); [done|].
  intros. apply drawMask_with_masks.
Qed.

(** X10: A render frame paints from the mask states its [draw] closure captured,
    not from the current ones: a pointer-move that drags a mask changes
    nothing of what the next frame paints, writes in the labels and
    requests.  The canvas of a dragged mask keeps showing the crop for the
    position the running loop saw when it was started. *)
Theorem drag_does_not_reach_running_loop {num : Type} `{!Arith num, !Builtins num}
    (c : Component num) (i : nat) (e : MouseEvent num) :
  let dragged := step c (mousemove i e) in
  canvasRefs (step dragged animationFrame) = canvasRefs (step c animationFrame)
  ∧ coordsRefs (step dragged animationFrame) = coordsRefs (step c animationFrame)
  ∧ frames (step dragged animationFrame) = frames (step c animationFrame).
Proof.
  intros dragged. subst dragged.
  assert (Hmove : ∃ masks f, step c (mousemove i e) = with_masks masks (with_state f c)).
  { simpl. unfold handleMouseMove. case_decide.
    - destruct (aget _ i); [by eexists _, _|].
      exists (maskRefs c). eexists. by destruct c.
    - exists (maskRefs c), id. by destruct c as [? ? ? ? ? ? []]. }
  destruct Hmove as (masks & f & ->).
  change (step (with_masks masks (with_state f c)) animationFrame)
    with (match frames c with
          | [] => with_masks masks (with_state f c)
          | (_, states) :: rest =>
              draw states (with_masks masks (with_state f (with_frames rest c)))
          end).
  change (step c animationFrame)
    with (match frames c with
          | [] => c
          | (_, states) :: rest => draw states (with_frames rest c)
          end).
  destruct (frames c) as [|[hd states] rest]; [done|].
  by rewrite draw_with_masks, draw_with_state.
Qed.

(** * More on the geometry *)

Lemma cover_box_covers (video : Video Q) (win : Window Q) :
  (0 < videoWidth video)%Q → (0 < videoHeight video)%Q →
  (innerWidth win <= Cover.scale video win * videoWidth video
   ∧ innerHeight win <= Cover.scale video win * videoHeight video)%Q.
Proof.
  intros Hvw Hvh. split.
  - assert (E : (innerWidth win == innerWidth win / videoWidth video * videoWidth video)%Q)
      by (field; lra).
    rewrite E at 1. apply Qmult_le_compat_r; [apply Q.le_max_l|lra].
  - assert (E : (innerHeight win == innerHeight win / videoHeight video * videoHeight video)%Q)
      by (field; lra).
    rewrite E at 1. apply Qmult_le_compat_r; [apply Q.le_max_r|lra].
Qed.

Lemma Qhalf (a : Q) : (a / 2 == a * (1 # 2))%Q.
Proof. field. Qed.

Lemma Qle_of_scaled (a b s : Q) : (0 < s → a * s <= b * s → a <= b)%Q.
Proof.
  intros Hs Hle. apply Qnot_lt_le. intros Hlt.
  apply (Qmult_lt_compat_r _ _ s Hs) in Hlt. lra.
Qed.

(** X11: In exact arithmetic, for a video and a viewport of positive sizes, a
    mask that lies inside the viewport is drawn from a source rectangle that
    lies inside the video: the cover fit leaves no part of the viewport
    without video, so no mask on screen samples outside the frame. *)
Theorem source_rectangle_within_video (video : Video Q) (win : Window Q) (rect : MaskState Q) :
  (0 < videoWidth video)%Q → (0 < videoHeight video)%Q →
  (0 < innerWidth win)%Q → (0 < innerHeight win)%Q →
  (0 <= x rect)%Q → (0 <= y rect)%Q → (0 <= w rect)%Q → (0 <= h rect)%Q →
  (x rect + w rect <= innerWidth win)%Q →
  (y rect + h rect <= innerHeight win)%Q →
  ∃ sx sy sw sh,
    drawClipped video win rect = drawImage sx sy sw sh 0%Q 0%Q (w rect) (h rect)
    ∧ (0 <= sx ∧ 0 <= sy ∧ 0 <= sw ∧ 0 <= sh)%Q
    ∧ (sx + sw <= videoWidth video)%Q
    ∧ (sy + sh <= videoHeight video)%Q.
Proof.
  intros Hvw Hvh Hw Hh Hx Hy Hrw Hrh Hxw Hyh.
  pose proof (placement_cover video win Hvw Hvh Hw Hh) as (Hdw & Hdh & Hdx & Hdy).
  pose proof (scale_pos video win Hvw Hvh Hw Hh) as Hs.
  pose proof (cover_box_covers video win Hvw Hvh) as [Hcw Hch].
  simpl in Hdw, Hdh, Hdx, Hdy.
  set (s := Cover.scale video win) in *.
  unfold drawClipped, scaleX, scaleY. do 4 eexists. split; [reflexivity|].
  set (p := placement video win) in *.
  cbn [nsub nmul ndiv nadd Q_arith].
  assert (Hsx : ((x rect - dx p) * (videoWidth video / dw p) * s
                 == x rect - (innerWidth win - s * videoWidth video) / 2)%Q).
  { rewrite Hdx, Hdw. field. lra. }
  assert (Hsy : ((y rect - dy p) * (videoHeight video / dh p) * s
                 == y rect - (innerHeight win - s * videoHeight video) / 2)%Q).
  { rewrite Hdy, Hdh. field. lra. }
  assert (Hsw : (w rect * (videoWidth video / dw p) * s == w rect)%Q).
  { rewrite Hdw. field. lra. }
  assert (Hsh : (h rect * (videoHeight video / dh p) * s == h rect)%Q).
  { rewrite Hdh. field. lra. }
  clearbody s p.
  assert (Hx' : (0 * s <= x rect - (innerWidth win - s * videoWidth video) / 2)%Q).
  { clear - Hx Hcw. set (m := (s * videoWidth video)%Q) in *. clearbody m. rewrite Qhalf. lra. }
  assert (Hy' : (0 * s <= y rect - (innerHeight win - s * videoHeight video) / 2)%Q).
  { clear - Hy Hch. set (m := (s * videoHeight video)%Q) in *. clearbody m. rewrite Qhalf. lra. }
  assert (Hw' : (0 * s <= w rect)%Q) by (clear - Hrw; lra).
  assert (Hh' : (0 * s <= h rect)%Q) by (clear - Hrh; lra).
  assert (Hxw' : (x rect - (innerWidth win - s * videoWidth video) / 2 + w rect
                  <= videoWidth video * s)%Q).
  { clear - Hxw Hcw. rewrite (Qmult_comm (videoWidth video) s).
    set (m := (s * videoWidth video)%Q) in *. clearbody m. rewrite Qhalf. lra. }
  assert (Hyh' : (y rect - (innerHeight win - s * videoHeight video) / 2 + h rect
                  <= videoHeight video * s)%Q).
  { clear - Hyh Hch. rewrite (Qmult_comm (videoHeight video) s).
    set (m := (s * videoHeight video)%Q) in *. clearbody m. rewrite Qhalf. lra. }
  split; [split; [|split; [|split]]|split].
  - apply (Qle_of_scaled _ _ s Hs). by rewrite Hsx.
  - apply (Qle_of_scaled _ _ s Hs). by rewrite Hsy.
  - apply (Qle_of_scaled _ _ s Hs). by rewrite Hsw.
  - apply (Qle_of_scaled _ _ s Hs). by rewrite Hsh.
  - apply (Qle_of_scaled _ _ s Hs). by rewrite Qmult_plus_distr_l, Hsx, Hsw.
  - apply (Qle_of_scaled _ _ s Hs). by rewrite Qmult_plus_distr_l, Hsy, Hsh.
Qed.

(** Mask 5 of the example page, 600x175 at (300,100) in the 1000x500
    viewport, under the 1920x1080 video. *)
Lemma source_rectangle_within_video_witness :
  ∃ sx sy sw sh,
    drawClipped {| videoWidth := 1920%Q; videoHeight := 1080%Q |}
                {| innerWidth := 1000%Q; innerHeight := 500%Q |}
                {| x := 300%Q; y := 100%Q; w := 600%Q; h := 175%Q |}
    = drawImage sx sy sw sh 0%Q 0%Q 600%Q 175%Q
    ∧ (0 <= sx ∧ 0 <= sy ∧ 0 <= sw ∧ 0 <= sh)%Q
    ∧ (sx + sw <= 1920)%Q
    ∧ (sy + sh <= 1080)%Q.
Proof.
  apply (source_rectangle_within_video
           {| videoWidth := 1920%Q; videoHeight := 1080%Q |}
           {| innerWidth := 1000%Q; innerHeight := 500%Q |}
           {| x := 300%Q; y := 100%Q; w := 600%Q; h := 175%Q |});
    simpl; lra.
Defined.

(** * Teardown *)

Section Loops.
Context {num : Type} `{!Arith num, !Builtins num}.
Implicit Types (c : Component num) (s : State num) (ev : Event num).
Implicit Types (states : list (option (MaskSlot num))).

Lemma initCanvases_scheduler states c : scheduler (initCanvases states c) = scheduler c.
Proof.
  unfold initCanvases, forEach. apply (forEachFrom_preserves scheduler).
  intros. by case_match.
Qed.

Lemma draw_scheduler states c video :
  videoRef c = Some video →
  scheduler (draw states c)
  = (videoRef c, frames c ++ [(nextHandle c, states)], S (nextHandle c), nextHandle c).
Proof.
  intros Hv. unfold draw. rewrite Hv.
  assert (Hloop : scheduler (forEach (drawMask video states) states c) = scheduler c).
  { unfold forEach. apply (forEachFrom_preserves scheduler).
    intros. unfold scheduler, drawMask, updateCoords. by repeat case_match. }
  unfold scheduler in *. simpl.
  injection Hloop as Hv' Hf' Hn' Hr'. by rewrite Hv', Hf', Hn', Hv.
Qed.

Lemma step_scheduler_interaction c ev :
  interaction ev = true →
  ev ≠ animationFrame →
  scheduler (step c ev) = scheduler c.
Proof.
  intros Hev Hne. destruct ev as [idx e|idx e| | | |e| | |]; simpl; try done.
  - unfold handleMouseDown. by repeat case_match.
  - unfold handleMouseMove. by repeat case_match.
  - unfold handleMouseUp. by repeat case_match.
  - unfold handleMouseMoveGlobal. by case_match.
  - by destruct (Bool.eqb _ _).
Qed.

Lemma framesInOrder_below c :
  framesInOrder c → Forall (λ f, f.1 < nextHandle c) (frames c).
Proof.
  intros [Hpos [->|(older & st & -> & Holder & Hlo & Hhi)]]; [done|].
  apply Forall_app. split.
  - eapply Forall_impl; [exact Holder|]. simpl. lia.
  - by apply Forall_singleton.
Qed.

(** Every loop keeps one frame requested. *)
Lemma step_framesInOrder c ev video :
  videoRef c = Some video →
  framesInOrder c →
  videoRef (step c ev) = Some video
  ∧ framesInOrder (step c ev)
  ∧ length (frames (step c ev))
    = length (frames c) + (if interaction ev then 0 else 1).
Proof.
  intros Hv Hinv.
  assert (Hquiet : ∀ ev', interaction ev' = true → ev' ≠ animationFrame →
            videoRef (step c ev') = Some video
            ∧ framesInOrder (step c ev')
            ∧ length (frames (step c ev')) = length (frames c) + 0).
  { intros ev' Hev Hframe.
    pose proof (step_scheduler_interaction c ev' Hev Hframe) as Hs.
    unfold scheduler in Hs. injection Hs as Hv' Hf' Hn' Hr'.
    split; [by rewrite Hv'|]. split.
    - unfold framesInOrder. by rewrite Hf', Hn', Hr'.
    - rewrite Hf'. lia. }
  destruct ev as [idx e|idx e| | | |e| | |];
    try (by apply Hquiet); clear Hquiet.
  - simpl. rewrite Hv. unfold handlePlaying.
    pose proof (initCanvases_scheduler (maskStates (state c)) (initMasks c)) as Hi.
    unfold scheduler in Hi. simpl in Hi. injection Hi as Hvi Hfi Hni Hri.
    pose proof (draw_scheduler (maskStates (state c))
                  (initCanvases (maskStates (state c)) (initMasks c)) video
                  (eq_trans Hvi Hv)) as Hd.
    unfold scheduler in Hd. rewrite Hvi, Hfi, Hni in Hd.
    injection Hd as Hv' Hf' Hn' Hr'.
    pose proof (framesInOrder_below c Hinv) as Hbelow. destruct Hinv as [Hpos _].
    split; [by rewrite Hv'|]. split.
    + unfold framesInOrder. rewrite Hf', Hn', Hr'. split; [lia|].
      right. exists (frames c), (maskStates (state c)).
      split; [done|]. split; [done|lia].
    + rewrite Hf', length_app. simpl. lia.
  - simpl. destruct (frames c) as [|[hd states] rest] eqn:Hf.
    + rewrite Hf. split; [done|]. split; [done|]. simpl. lia.
    + pose proof (framesInOrder_below c Hinv) as Hbelow. rewrite Hf in Hbelow.
      apply Forall_cons in Hbelow as [_ Hbelow].
      pose proof (draw_scheduler states (with_frames rest c) video Hv) as Hd.
      unfold scheduler in Hd. simpl in Hd. injection Hd as Hv' Hf' Hn' Hr'.
      split; [by rewrite Hv'|]. split.
      * unfold framesInOrder. rewrite Hf', Hn', Hr'. split; [lia|].
        right. exists rest, states. destruct Hinv as [Hpos _].
        split; [done|]. split; [done|lia].
      * rewrite Hf'. rewrite length_app. simpl. lia.
Qed.

Lemma run_framesInOrder evs c video :
  videoRef c = Some video →
  framesInOrder c →
  framesInOrder (run c evs)
  ∧ length (frames (run c evs)) = length (frames c) + playbackStarts evs.
Proof.
  revert c. induction evs as [|ev evs IH]; intros c Hv Hinv.
  - split; [done|]. unfold playbackStarts. simpl. lia.
  - destruct (step_framesInOrder c ev video Hv Hinv) as (Hv' & Hinv' & Hlen).
    destruct (IH (step c ev) Hv' Hinv') as [Hinv'' Hlen'].
    unfold run in *. simpl. split; [done|]. rewrite Hlen', Hlen.
    unfold playbackStarts. rewrite filter_cons.
    destruct (decide (interaction ev = false)) as [E|E].
    + rewrite E. simpl. lia.
    + destruct (interaction ev); [lia|done].
Qed.

Lemma filter_all {A} (P : A → Prop) `{!∀ a, Decision (P a)} (l : list A) :
  Forall P l → filter P l = l.
Proof.
  induction 1 as [|a l Ha Hl IH]; [done|].
  rewrite filter_cons, decide_True by done. by rewrite IH.
Qed.

(** The cleanup cancels the frame requested last, and that one only. *)
Lemma cleanup_frames c :
  framesInOrder c →
  frames c = [] ∧ frames (cleanup c) = []
  ∨ ∃ states, frames c = frames (cleanup c) ++ [(animationFrameRef c, states)].
Proof.
  intros [Hpos [Hnil|(older & st & Hf & Holder & Hlo & Hhi)]].
  - left. split; [done|]. unfold cleanup, cancelAnimationFrame.
    case_decide; [done|]. simpl. by rewrite Hnil.
  - right. exists st. unfold cleanup, cancelAnimationFrame.
    rewrite decide_False by lia. simpl. rewrite Hf at 2.
    rewrite filter_app, filter_cons, filter_nil. simpl.
    rewrite decide_False by (intros Hne; by apply Hne).
    rewrite app_nil_r, filter_all; [done|].
    eapply Forall_impl; [exact Holder|]. simpl. lia.
Qed.

End Loops.

(** X12: While the video element is there, every [playing] event starts a render
    loop of its own, and each loop keeps exactly one frame requested; the
    cleanup on unmount cancels the frame requested last and no other.  After
    one [playing] event the teardown leaves no frame to run; after [n] of
    them, [n - 1] loops go on running against the unmounted component. *)
Theorem teardown_cancels_last_loop_only {num : Type} `{!Arith num, !Builtins num}
    (c : Component num) (video : Video num) (evs : list (Event num)) :
  mounted c →
  0 < nextHandle c →
  videoRef c = Some video →
  length (frames (run c evs)) = playbackStarts evs
  ∧ length (frames (cleanup (run c evs))) = playbackStarts evs - 1.
Proof.
  intros [_ Hframes] Hpos Hv.
  assert (Hinv : framesInOrder c) by (split; [done|by left]).
  destruct (run_framesInOrder evs c video Hv Hinv) as [Hinv' Hlen].
  rewrite Hframes in Hlen. simpl in Hlen. split; [done|].
  destruct (cleanup_frames (run c evs) Hinv') as [[Hnil ->]|[states Hlast]].
  - rewrite Hnil in Hlen. simpl in *. lia.
  - rewrite Hlast, length_app in Hlen. simpl in Hlen. lia.
Qed.

(** On the example page: one loop is cancelled by the teardown, and of two
    loops one survives it. *)
Lemma teardown_cancels_last_loop_only_witness :
  frames (cleanup (run Page.mount [playing; animationFrame; mouseenter])) = []
  ∧ length (frames (cleanup (run Page.mount
              [playing; animationFrame; playing; animationFrame]))) = 1.
Proof.
  split.
  - apply length_zero_iff_nil.
    exact (proj2 (teardown_cancels_last_loop_only Page.mount _
                    [playing; animationFrame; mouseenter]
                    (conj eq_refl eq_refl) (le_n 1) eq_refl)).
  - exact (proj2 (teardown_cancels_last_loop_only Page.mount _
                    [playing; animationFrame; playing; animationFrame]
                    (conj eq_refl eq_refl) (le_n 1) eq_refl)).
Defined.

(** * Before the video plays *)

(** X13: Until the first [playing] event no mask can be dragged: whatever is
    pressed, moved, released, hovered or rendered on a freshly mounted
    component, there is no mask state, no drag starts, no frame is requested,
    and the mask elements and the canvases stay as they were mounted. *)
Theorem no_drag_before_playback {num : Type} `{!Arith num, !Builtins num}
    (c : Component num) (evs : list (Event num)) :
  mounted c →
  forallb interaction evs = true →
  maskStates (state (run c evs)) = []
  ∧ index (draggingState (state (run c evs))) = None
  ∧ frames (run c evs) = []
  ∧ maskRefs (run c evs) = maskRefs c
  ∧ canvasRefs (run c evs) = canvasRefs c.
Proof.
  intros [Hstate Hframes].
  assert (Hstart : maskStates (state c) = [] ∧ index (draggingState (state c)) = None
                   ∧ frames c = []) by (by rewrite Hstate).
  clear Hstate Hframes.
  assert (Hgoal : forallb interaction evs = true →
            ∀ c', maskStates (state c') = [] ∧ index (draggingState (state c')) = None
                  ∧ frames c' = [] →
            maskStates (state (run c' evs)) = []
            ∧ index (draggingState (state (run c' evs))) = None
            ∧ frames (run c' evs) = []
            ∧ maskRefs (run c' evs) = maskRefs c'
            ∧ canvasRefs (run c' evs) = canvasRefs c').
  { clear c Hstart. induction evs as [|ev evs IH]; intros Hall c (Hs & Hi & Hf); [done|].
    simpl in Hall. apply andb_prop in Hall as [Hev Hall].
    assert (Hstep : maskStates (state (step c ev)) = []
                    ∧ index (draggingState (state (step c ev))) = None
                    ∧ frames (step c ev) = []
                    ∧ maskRefs (step c ev) = maskRefs c
                    ∧ canvasRefs (step c ev) = canvasRefs c).
    { destruct ev as [idx e|idx e| | | |e| | |]; simpl; try done.
      - unfold handleMouseDown. rewrite Hs.
        by destruct (aget (maskRefs c) idx).
      - rewrite handleMouseMove_inactive by (by rewrite Hi). done.
      - unfold handleMouseUp. by rewrite Hi.
      - unfold handleMouseMoveGlobal. by destruct (negb _).
      - by rewrite Hf.
      - by destruct (Bool.eqb _ _). }
    destruct Hstep as (Hs' & Hi' & Hf' & Hm' & Hc').
    destruct (IH Hall (step c ev) (conj Hs' (conj Hi' Hf'))) as (? & ? & ? & Hm & Hc).
    unfold run in *. simpl. repeat split; try done; congruence. }
  intros Hall. by apply Hgoal.
Qed.

Lemma no_drag_before_playback_witness :
  let c := run Page.mount [mouseenter; mousedown 2 (Page.at_ 610 80);
                           mousemove 2 (Page.at_ 500 90); mouseup; animationFrame] in
  maskStates (state c) = []
  ∧ index (draggingState (state c)) = None
  ∧ frames c = []
  ∧ maskRefs c = Page.buttons
  ∧ canvasRefs c = replicate 6 Page.canvas.
Proof.
  exact (no_drag_before_playback Page.mount
           [mouseenter; mousedown 2 (Page.at_ 610 80);
            mousemove 2 (Page.at_ 500 90); mouseup; animationFrame]
           (conj eq_refl eq_refl) eq_refl).
Defined.
